(** * mir_eval: boundary and structure segmentation metrics

    A shallow embedding of [mir_eval/boundary.py] and [mir_eval/structure.py].

    Numeric model.  A finite float64 is idealised as a real number (no
    rounding, no overflow); [np.nan] is the separate value [NaN].  Python
    exceptions are the [Raise] results of an error monad.  The helpers of
    [mir_eval.util] are not part of the two source files: the metrics take
    them as section variables, and the module [Util] models them from the
    specification for use at concrete inputs. *)

From Stdlib Require Import String.
From Stdlib Require Import Reals Lra Lia List Sorted Bool Arith ZArith.
Import ListNotations.
Open Scope R_scope.

(** ** Floats, exceptions and the error monad *)

Inductive float : Type :=
| NaN
| Fin (r : R).

Inductive error : Type :=
| ShapeError          (* ValueError('Segment intervals should be n-by-2 numpy ndarray') *)
| NegativeTimeError   (* ValueError('Negative interval times found') *)
| NonPositiveError (start_ end_ : R)
                      (* ValueError('Non-positive interval detected: [%.3f, %.3f]') *)
| LabelCountError     (* ValueError('Number of intervals does not match number of labels') *)
| StartError          (* ValueError('Segment intervals do not start at 0') *)
| EndError            (* ValueError('End times do not match') *)
| IndexError          (* intervals[0, 0] on an array without rows *)
| BroadcastError      (* ValueError: operands could not be broadcast together *)
| LengthError.        (* ValueError: label vectors of different lengths *)

Inductive result (A : Type) : Type :=
| Ok (a : A)
| Raise (e : error).
Arguments Ok {A} a.
Arguments Raise {A} e.

Definition bind {A B} (m : result A) (k : A -> result B) : result B :=
  match m with
  | Ok a => k a
  | Raise e => Raise e
  end.

Notation "x <- m ;; k" := (bind m (fun x => k))
  (at level 61, m at next level, right associativity).
Notation "m ;;; k" := (bind m (fun _ => k))
  (at level 61, right associativity).

Definition is_error {A} (r : result A) : Prop :=
  match r with
  | Ok _ => False
  | Raise _ => True
  end.

(** Comparisons of floats, as the booleans python branches on. *)
Definition Rltb (x y : R) : bool := if Rlt_dec x y then true else false.
Definition Rleb (x y : R) : bool := if Rle_dec x y then true else false.

(** ** Arrays

    An interval argument is a numpy array.  Every validator first rejects
    any array that is not two-dimensional with two columns, before it reads
    an element; so an array is either [Rows2 rows], the n-by-2 array with
    the given rows, or [OtherShape], any array of another shape. *)
Inductive ndarray : Type :=
| Rows2 (rows : list (R * R))
| OtherShape.

(** [(intervals < 0).any()] on an n-by-2 array. *)
Definition any_negative (rows : list (R * R)) : bool :=
  existsb (fun row => Rltb (fst row) 0 || Rltb (snd row) 0) rows.

(** [np.allclose(a, b)] on two scalars, with numpy's default tolerances
    [rtol = 1e-05] and [atol = 1e-08]. *)
Definition rtol : R := 1 / 100000.
Definition atol : R := 1 / 100000000.
Definition allclose (a b : R) : bool :=
  Rleb (Rabs (a - b)) (atol + rtol * Rabs b).

(** A python slice [v[1:-1]]. *)
Definition slice_1_m1 {A} (v : list A) : list A := removelast (tl v).

(** Two-dimensional arrays built inside the metrics: a shape and the
    element at each index. *)
Record array2 (A : Type) : Type := mkArray2 {
  shape0 : nat;
  shape1 : nat;
  item : nat -> nat -> A
}.
Arguments mkArray2 {A} _ _ _.
Arguments shape0 {A} _.
Arguments shape1 {A} _.
Arguments item {A} _ _ _.

(** [M.T] *)
Definition transpose {A} (M : array2 A) : array2 A :=
  mkArray2 (shape1 M) (shape0 M) (fun i j => item M j i).

Definition Rsum (v : list R) : R := fold_right Rplus 0 v.
Definition nat_sum (v : list nat) : nat := fold_right Nat.add 0%nat v.

(** Labels are opaque tokens compared for equality; a sampled frame that
    no interval covers carries no label. *)
Definition label : Type := string.
Definition sample_label : Type := option label.

Definition sample_label_eqb (a b : sample_label) : bool :=
  match a, b with
  | Some x, Some y => String.eqb x y
  | None, None => true
  | _, _ => false
  end.

(** ** The helpers of [mir_eval.util], from the specification *)
Module Util.

(** Modelled from the spec: [util.f_measure], which is not in the source
    files.  "weighted harmonic mean: (1+beta^2) * P * R / (beta^2 * P + R),
    defined as 0 when the denominator is 0", "propagating NaN if either
    input is NaN". *)
Definition f_measure (precision recall : float) (beta : R) : float :=
  match precision, recall with
  | Fin p, Fin r =>
      if Req_dec_T (beta ^ 2 * p + r) 0 then Fin 0
      else Fin ((1 + beta ^ 2) * p * r / (beta ^ 2 * p + r))
  | _, _ => NaN
  end.

(** Insertion into an ascending sequence of distinct values. *)
Fixpoint insert_distinct (x : R) (v : list R) : list R :=
  match v with
  | [] => [x]
  | y :: v' =>
      if Rltb x y then x :: y :: v'
      else if Rltb y x then y :: insert_distinct x v'
      else y :: v'
  end.

(** Modelled from the spec: [util.intervals_to_boundaries], which is not in
    the source files.  "a derived, deduplicated, ascending sequence of
    distinct timestamps obtained from an Interval Sequence (start of first
    interval, followed by end of every interval)". *)
Definition intervals_to_boundaries (intervals : ndarray) : list R :=
  match intervals with
  | Rows2 ((start_, end_) :: rest) =>
      fold_right insert_distinct [] (start_ :: end_ :: map snd rest)
  | _ => []
  end.

(** Modelled from the spec: the contract of [util.match_events], which is
    not in the source files.  "a set of (reference-boundary,
    estimated-boundary) index pairs ... where each boundary is used at most
    once and every paired distance is within the window", of "maximum
    cardinality under the window constraint". *)
Definition matching (ref est : list R) (window : R) (m : list (nat * nat)) : Prop :=
  NoDup (map fst m) /\ NoDup (map snd m) /\
  forall i j, In (i, j) m ->
    (i < length ref)%nat /\ (j < length est)%nat /\
    Rabs (nth i ref 0 - nth j est 0) <= window.

Definition maximum_matching (ref est : list R) (window : R) (m : list (nat * nat)) : Prop :=
  matching ref est window m /\
  forall m', matching ref est window m' -> (length m' <= length m)%nat.

(** Modelled from the spec: [util.match_events], which is not in the source
    files, as the "sweep that pairs in ascending time order" over the two
    sorted sequences: the heads are paired when they lie within the window,
    otherwise the earlier one is dropped. *)
Fixpoint sweep (window : R) (ref : list R) (i : nat) : list R -> nat -> list (nat * nat) :=
  fix inner (est : list R) (j : nat) : list (nat * nat) :=
    match ref, est with
    | x :: ref', y :: est' =>
        if Rleb (Rabs (x - y)) window then (i, j) :: sweep window ref' (S i) est' (S j)
        else if Rltb x y then sweep window ref' (S i) est j
        else inner est' (S j)
    | _, _ => []
    end.

Definition match_events (ref est : list R) (window : R) : list (nat * nat) :=
  sweep window ref 0 est 0.

(** The label of the interval that contains time [t]. *)
Fixpoint interval_label (rows : list (R * R)) (labels : list label) (t : R)
    : sample_label :=
  match rows, labels with
  | (start_, end_) :: rows', l :: labels' =>
      if Rleb start_ t && Rltb t end_ then Some l
      else interval_label rows' labels' t
  | _, _ => None
  end.

(** Modelled from the spec: [util.intervals_to_samples], which is not in
    the source files.  "sampling at uniform steps of frame_size from 0 up to
    (effectively) the track's end, assigning each sample the label of the
    interval containing it"; "intervals are implicitly truncated to whole
    multiples of frame_size; any partial remainder frame is dropped". *)
Definition intervals_to_samples (intervals : ndarray) (labels : list label)
    (sample_size : R) : list R * list sample_label :=
  match intervals with
  | Rows2 (row :: rows) =>
      let end_ := snd (last rows row) in
      let n := Z.to_nat (Zfloor (end_ / sample_size)) in
      let sample_times := map (fun k => INR k * sample_size) (seq 0 n) in
      (sample_times, map (interval_label (row :: rows) labels) sample_times)
  | _ => ([], [])
  end.

Fixpoint index_of (x : sample_label) (table : list sample_label) : nat :=
  match table with
  | [] => 0
  | y :: table' => if sample_label_eqb x y then 0 else S (index_of x table')
  end.

(** The distinct labels in first-seen order. *)
Definition first_seen (labels : list sample_label) : list sample_label :=
  fold_left
    (fun table x =>
       if existsb (sample_label_eqb x) table then table else table ++ [x])
    labels [].

(** Modelled from the spec: [util.index_labels], which is not in the source
    files.  "mapping each distinct label value to a contiguous integer id
    range", "a mapping-based id assignment, preserving first-seen order";
    returns [(integer_ids, id_to_label_mapping)]. *)
Definition index_labels (labels : list sample_label)
    : list nat * list sample_label :=
  let table := first_seen labels in
  (map (fun x => index_of x table) labels, table).

End Util.

(** ** [mir_eval/boundary.py] *)
Module Boundary.

(** [__validate_intervals]: shape, then negative times, then the loop over
    the rows that raises at the first interval of non-positive duration. *)
Fixpoint check_durations (rows : list (R * R)) : result unit :=
  match rows with
  | [] => Ok tt
  | (start_, end_) :: rest =>
      if Rleb (end_ - start_) 0 then Raise (NonPositiveError start_ end_)
      else check_durations rest
  end.

Definition validate_intervals (intervals : ndarray) : result unit :=
  match intervals with
  | OtherShape => Raise ShapeError
  | Rows2 rows =>
      if any_negative rows then Raise NegativeTimeError
      else check_durations rows
  end.

(** The decorator [validate]: [Args] stands for [*args, **kwargs]. *)
Definition validate {Args B : Type}
    (metric : ndarray -> ndarray -> Args -> result B)
    (reference_intervals estimated_intervals : ndarray) (args : Args)
    : result B :=
  validate_intervals reference_intervals ;;;
  validate_intervals estimated_intervals ;;;
  metric reference_intervals estimated_intervals args.

(** [np.median] of a one-dimensional array: the middle of the sorted
    values, or the mean of the two middle ones; [nan] on an empty array. *)
Fixpoint insert_sorted (x : R) (v : list R) : list R :=
  match v with
  | [] => [x]
  | y :: v' => if Rleb x y then x :: y :: v' else y :: insert_sorted x v'
  end.

Definition sort (v : list R) : list R := fold_right insert_sorted [] v.

Definition median (v : list R) : float :=
  let s := sort v in
  let n := length v in
  if (n =? 0)%nat then NaN
  else if Nat.odd n then Fin (nth (n / 2) s 0)
  else Fin ((nth (n / 2 - 1) s 0 + nth (n / 2) s 0) / 2).

(** [np.min] of a non-empty one-dimensional array. *)
Definition amin (v : list R) : R :=
  match v with
  | [] => 0
  | x :: v' => fold_left Rmin v' x
  end.

(** [np.abs(np.subtract.outer(a, b))] *)
Definition abs_subtract_outer (a b : list R) : array2 R :=
  mkArray2 (length a) (length b) (fun i j => Rabs (nth i a 0 - nth j b 0)).

(** [M.min(axis=0)] runs over the rows and leaves one value per column;
    [M.min(axis=1)] leaves one value per row.  In [deviation] both axes are
    non-empty when these are reached. *)
Definition min_axis0 (M : array2 R) : list R :=
  map (fun j => amin (map (fun i => item M i j) (seq 0 (shape0 M))))
      (seq 0 (shape1 M)).

Definition min_axis1 (M : array2 R) : list R :=
  map (fun i => amin (map (fun j => item M i j) (seq 0 (shape1 M))))
      (seq 0 (shape0 M)).

Section Metrics.

(** The collaborators from [mir_eval.util]. *)
Variable intervals_to_boundaries : ndarray -> list R.
Variable match_events : list R -> list R -> R -> list (nat * nat).

Definition detection_wrapped (reference_intervals estimated_intervals : ndarray)
    (args : R * R * bool) : result (float * float * float) :=
  let '(window, beta, trim) := args in
  let reference_boundaries := intervals_to_boundaries reference_intervals in
  let estimated_boundaries := intervals_to_boundaries estimated_intervals in
  let reference_boundaries :=
    if trim then slice_1_m1 reference_boundaries else reference_boundaries in
  let estimated_boundaries :=
    if trim then slice_1_m1 estimated_boundaries else estimated_boundaries in
  if (length reference_boundaries =? 0)%nat
     || (length estimated_boundaries =? 0)%nat
  then Ok (Fin 0, Fin 0, Fin 0)
  else
    let matching :=
      match_events reference_boundaries estimated_boundaries window in
    let precision :=
      Fin (INR (length matching) / INR (length estimated_boundaries)) in
    let recall :=
      Fin (INR (length matching) / INR (length reference_boundaries)) in
    let f_measure := Util.f_measure precision recall beta in
    Ok (precision, recall, f_measure).

Definition detection (reference_intervals estimated_intervals : ndarray)
    (window beta : R) (trim : bool) : result (float * float * float) :=
  validate detection_wrapped reference_intervals estimated_intervals
           (window, beta, trim).

Definition deviation_wrapped (reference_intervals estimated_intervals : ndarray)
    (trim : bool) : result (float * float) :=
  let reference_boundaries := intervals_to_boundaries reference_intervals in
  let estimated_boundaries := intervals_to_boundaries estimated_intervals in
  let reference_boundaries :=
    if trim then slice_1_m1 reference_boundaries else reference_boundaries in
  let estimated_boundaries :=
    if trim then slice_1_m1 estimated_boundaries else estimated_boundaries in
  if (length reference_boundaries =? 0)%nat
     || (length estimated_boundaries =? 0)%nat
  then Ok (NaN, NaN)
  else
    let dist := abs_subtract_outer reference_boundaries estimated_boundaries in
    let estimated_to_reference := median (min_axis0 dist) in
    let reference_to_estimated := median (min_axis1 dist) in
    Ok (reference_to_estimated, estimated_to_reference).

Definition deviation (reference_intervals estimated_intervals : ndarray)
    (trim : bool) : result (float * float) :=
  validate deviation_wrapped reference_intervals estimated_intervals trim.

(** The boundary set a metric works on: converted, then trimmed on demand. *)
Definition boundaries (intervals : ndarray) (trim : bool) : list R :=
  if trim then slice_1_m1 (intervals_to_boundaries intervals)
  else intervals_to_boundaries intervals.

End Metrics.

End Boundary.

(** ** [mir_eval/structure.py] *)
Module Structure.

(** [__validate_intervals]: the shape and the negative times only. *)
Definition validate_intervals (intervals : ndarray) : result unit :=
  match intervals with
  | OtherShape => Raise ShapeError
  | Rows2 rows =>
      if any_negative rows then Raise NegativeTimeError else Ok tt
  end.

(** [intervals.shape[0]] *)
Definition n_rows (intervals : ndarray) : nat :=
  match intervals with
  | Rows2 rows => length rows
  | OtherShape => 0
  end.

(** [intervals[0, 0]] and [intervals[-1, 1]]; an array without rows has
    neither. *)
Definition item_0_0 (intervals : ndarray) : result R :=
  match intervals with
  | Rows2 (row :: _) => Ok (fst row)
  | _ => Raise IndexError
  end.

Definition item_m1_1 (intervals : ndarray) : result R :=
  match intervals with
  | Rows2 (row :: rows) => Ok (snd (last rows row))
  | _ => Raise IndexError
  end.

(** One round of the loop over the two (intervals, labels) pairs. *)
Definition validate_pair (intervals : ndarray) (labels : list label) : result unit :=
  validate_intervals intervals ;;;
  (if (n_rows intervals =? length labels)%nat then Ok tt
   else Raise LabelCountError) ;;;
  start_ <- item_0_0 intervals ;;
  if allclose start_ 0 then Ok tt else Raise StartError.

(** The decorator [validate]: [Args] stands for [*args, **kwargs]. *)
Definition validate {Args B : Type}
    (metric : ndarray -> list label -> ndarray -> list label -> Args -> result B)
    (reference_intervals : ndarray) (reference_labels : list label)
    (estimated_intervals : ndarray) (estimated_labels : list label)
    (args : Args) : result B :=
  validate_pair reference_intervals reference_labels ;;;
  validate_pair estimated_intervals estimated_labels ;;;
  reference_end <- item_m1_1 reference_intervals ;;
  estimated_end <- item_m1_1 estimated_intervals ;;
  (if allclose reference_end estimated_end then Ok tt else Raise EndError) ;;;
  metric reference_intervals reference_labels
         estimated_intervals estimated_labels args.

(** [np.equal.outer(a, b)] *)
Definition equal_outer (a b : list nat) : array2 bool :=
  mkArray2 (length a) (length b) (fun i j => (nth i a 0 =? nth j b 0)%nat).

(** [np.triu(M)]: the elements below the main diagonal are cleared, the
    diagonal and what lies above it are kept. *)
Definition triu (M : array2 bool) : array2 bool :=
  mkArray2 (shape0 M) (shape1 M)
           (fun i j => if (j <? i)%nat then false else item M i j).

(** [M.sum()] of a boolean array: the number of true elements. *)
Definition asum (M : array2 bool) : nat :=
  nat_sum (map (fun i =>
                  nat_sum (map (fun j => if item M i j then 1%nat else 0%nat)
                               (seq 0 (shape1 M))))
               (seq 0 (shape0 M))).

(** numpy broadcasting of one dimension: equal lengths, or one of them 1. *)
Definition broadcast_dim (a b : nat) : option nat :=
  if (a =? b)%nat then Some a
  else if (a =? 1)%nat then Some b
  else if (b =? 1)%nat then Some a
  else None.

(** [A & B] on boolean arrays. *)
Definition logical_and (A B : array2 bool) : result (array2 bool) :=
  match broadcast_dim (shape0 A) (shape0 B),
        broadcast_dim (shape1 A) (shape1 B) with
  | Some n0, Some n1 =>
      Ok (mkArray2 n0 n1
            (fun i j =>
               item A (if (shape0 A =? 1)%nat then 0%nat else i)
                      (if (shape1 A =? 1)%nat then 0%nat else j)
               && item B (if (shape0 B =? 1)%nat then 0%nat else i)
                         (if (shape1 B =? 1)%nat then 0%nat else j)))
  | _, _ => Raise BroadcastError
  end.

(** [x / n] for a float [x] and a numpy integer [n]: [0.0 / 0] is [nan].
    A non-zero [x] over 0, which is an infinity, does not arise in
    [pairwise], where the numerator counts a subset of what the
    denominator counts whenever the denominator is 0. *)
Definition true_divide (x : R) (n : nat) : float :=
  match n with
  | O => NaN
  | S _ => Fin (x / INR n)
  end.

(** [np.unique] of an integer vector: its distinct values, ascending. *)
Fixpoint insert_distinct (x : nat) (v : list nat) : list nat :=
  match v with
  | [] => [x]
  | y :: v' =>
      if (x <? y)%nat then x :: y :: v'
      else if (y <? x)%nat then y :: insert_distinct x v'
      else y :: v'
  end.

Definition unique (v : list nat) : list nat :=
  fold_right insert_distinct [] v.

(** The number of frames labelled [a] by the first and [b] by the second
    vector. *)
Definition count_pair (a b : nat) (pairs : list (nat * nat)) : nat :=
  length (filter (fun p => (fst p =? a)%nat && (snd p =? b)%nat) pairs).

(** [sklearn.metrics.cluster.contingency_matrix(labels_true, labels_pred)
    .astype(float)]: one row per distinct true label and one column per
    distinct predicted label, in ascending order, holding the number of
    samples that carry both. Vectors of different lengths are refused. *)
Definition contingency_matrix (labels_true labels_pred : list nat)
    : result (array2 R) :=
  if (length labels_true =? length labels_pred)%nat then
    let classes := unique labels_true in
    let clusters := unique labels_pred in
    Ok (mkArray2 (length classes) (length clusters)
          (fun i j => INR (count_pair (nth i classes 0%nat) (nth j clusters 0%nat)
                                      (combine labels_true labels_pred))))
  else Raise LengthError.

(** [M / n] *)
Definition divide_scalar (M : array2 R) (n : nat) : array2 R :=
  mkArray2 (shape0 M) (shape1 M) (fun i j => item M i j / INR n).

(** [M.sum(axis=0)] and [M.sum(axis=1)] *)
Definition sum_axis0 (M : array2 R) : list R :=
  map (fun j => Rsum (map (fun i => item M i j) (seq 0 (shape0 M))))
      (seq 0 (shape1 M)).

Definition sum_axis1 (M : array2 R) : list R :=
  map (fun i => Rsum (map (fun j => item M i j) (seq 0 (shape1 M))))
      (seq 0 (shape0 M)).

(** [u.dot(v)] *)
Definition dot (u v : list R) : R :=
  Rsum (map (fun p => fst p * snd p) (combine u v)).

(** [np.log2] *)
Definition log2 (x : R) : R := ln x / ln 2.

(** [scipy.stats.entropy(pk, base=base)] on a two-dimensional [pk]: each
    column is normalised to sum 1, and its entropy
    [-sum(where(pk == 0, 0.0, pk * log(pk)))] is divided by [log(base)]. *)
Definition xlogx (p : R) : R :=
  if Req_dec_T p 0 then 0 else p * ln p.

Definition entropy (pk : array2 R) (base : R) : list R :=
  map (fun j =>
         let total := Rsum (map (fun i => item pk i j) (seq 0 (shape0 pk))) in
         - Rsum (map (fun i => xlogx (item pk i j / total)) (seq 0 (shape0 pk)))
         / ln base)
      (seq 0 (shape1 pk)).

Section Metrics.

(** The collaborators from [mir_eval.util] and from [sklearn.metrics]. *)
Variable intervals_to_samples :
  ndarray -> list label -> R -> list R * list sample_label.
Variable index_labels : list sample_label -> list nat * list sample_label.
Variable adjusted_rand_score : list nat -> list nat -> float.
Variable mutual_info_score : list nat -> list nat -> float.
Variable adjusted_mutual_info_score : list nat -> list nat -> float.
Variable normalized_mutual_info_score : list nat -> list nat -> float.

(** The two statements every metric starts with: sample the labels, keep
    the last component, and map the labels to integer ids. *)
Definition frame_ids (intervals : ndarray) (labels : list label)
    (frame_size : R) : list nat :=
  let y := snd (intervals_to_samples intervals labels frame_size) in
  fst (index_labels y).

Definition pairwise_wrapped
    (reference_intervals : ndarray) (reference_labels : list label)
    (estimated_intervals : ndarray) (estimated_labels : list label)
    (args : R * R) : result (float * float * float) :=
  let '(frame_size, beta) := args in
  let y_ref := frame_ids reference_intervals reference_labels frame_size in
  let y_est := frame_ids estimated_intervals estimated_labels frame_size in
  let agree_ref := triu (equal_outer y_ref y_ref) in
  let agree_est := triu (equal_outer y_est y_est) in
  both <- logical_and agree_ref agree_est ;;
  let matches := INR (asum both) in
  let precision := true_divide matches (asum agree_est) in
  let recall := true_divide matches (asum agree_ref) in
  let f_measure := Util.f_measure precision recall beta in
  Ok (precision, recall, f_measure).

Definition pairwise
    (reference_intervals : ndarray) (reference_labels : list label)
    (estimated_intervals : ndarray) (estimated_labels : list label)
    (frame_size beta : R) : result (float * float * float) :=
  validate pairwise_wrapped reference_intervals reference_labels
           estimated_intervals estimated_labels (frame_size, beta).

Definition ari_wrapped
    (reference_intervals : ndarray) (reference_labels : list label)
    (estimated_intervals : ndarray) (estimated_labels : list label)
    (frame_size : R) : result float :=
  let y_ref := frame_ids reference_intervals reference_labels frame_size in
  let y_est := frame_ids estimated_intervals estimated_labels frame_size in
  Ok (adjusted_rand_score y_ref y_est).

Definition ari
    (reference_intervals : ndarray) (reference_labels : list label)
    (estimated_intervals : ndarray) (estimated_labels : list label)
    (frame_size : R) : result float :=
  validate ari_wrapped reference_intervals reference_labels
           estimated_intervals estimated_labels frame_size.

Definition mutual_information_wrapped
    (reference_intervals : ndarray) (reference_labels : list label)
    (estimated_intervals : ndarray) (estimated_labels : list label)
    (frame_size : R) : result (float * float * float) :=
  let y_ref := frame_ids reference_intervals reference_labels frame_size in
  let y_est := frame_ids estimated_intervals estimated_labels frame_size in
  let mutual_info := mutual_info_score y_ref y_est in
  let adj_mutual_info := adjusted_mutual_info_score y_ref y_est in
  let norm_mutual_info := normalized_mutual_info_score y_ref y_est in
  Ok (mutual_info, adj_mutual_info, norm_mutual_info).

Definition mutual_information
    (reference_intervals : ndarray) (reference_labels : list label)
    (estimated_intervals : ndarray) (estimated_labels : list label)
    (frame_size : R) : result (float * float * float) :=
  validate mutual_information_wrapped reference_intervals reference_labels
           estimated_intervals estimated_labels frame_size.

Definition nce_wrapped
    (reference_intervals : ndarray) (reference_labels : list label)
    (estimated_intervals : ndarray) (estimated_labels : list label)
    (args : R * R) : result (float * float * float) :=
  let '(frame_size, beta) := args in
  let y_ref := frame_ids reference_intervals reference_labels frame_size in
  let y_est := frame_ids estimated_intervals estimated_labels frame_size in
  contingency <- contingency_matrix y_ref y_est ;;
  let contingency := divide_scalar contingency (length y_ref) in
  let n_ref := shape0 contingency in
  let n_est := shape1 contingency in
  let p_est := sum_axis0 contingency in
  let p_ref := sum_axis1 contingency in
  let true_given_est := dot p_est (entropy contingency 2) in
  let pred_given_ref := dot p_ref (entropy (transpose contingency) 2) in
  let score_under :=
    if (1 <? n_ref)%nat then Fin (1 - true_given_est / log2 (INR n_ref))
    else NaN in
  let score_over :=
    if (1 <? n_est)%nat then Fin (1 - pred_given_ref / log2 (INR n_est))
    else NaN in
  let f_measure := Util.f_measure score_over score_under beta in
  Ok (score_over, score_under, f_measure).

Definition nce
    (reference_intervals : ndarray) (reference_labels : list label)
    (estimated_intervals : ndarray) (estimated_labels : list label)
    (frame_size beta : R) : result (float * float * float) :=
  validate nce_wrapped reference_intervals reference_labels
           estimated_intervals estimated_labels (frame_size, beta).

End Metrics.

End Structure.

(** * Statements

    What the properties below say about the metrics. *)

(** The behaviour every decorated structure metric has: [decorated] is the
    metric as callers see it, [wrapped] the function under the decorator. *)
Definition validator_contract {Args B : Type}
    (decorated wrapped :
       ndarray -> list label -> ndarray -> list label -> Args -> result B) : Prop :=
  forall (reference_intervals : ndarray) (reference_labels : list label)
         (estimated_intervals : ndarray) (estimated_labels : list label)
         (args : Args),
    let outcome :=
      decorated reference_intervals reference_labels
                estimated_intervals estimated_labels args in
    (* a label count that differs from the interval count *)
    (Structure.n_rows reference_intervals <> length reference_labels
     \/ Structure.n_rows estimated_intervals <> length estimated_labels ->
     is_error outcome)
    (* a first interval that does not start at about 0.0 *)
    /\ (forall row rows,
           reference_intervals = Rows2 (row :: rows)
           \/ estimated_intervals = Rows2 (row :: rows) ->
           allclose (fst row) 0 = false ->
           is_error outcome)
    (* the checks of one sequence fail before anything later is looked at *)
    /\ (forall e,
           Structure.validate_pair reference_intervals reference_labels = Raise e ->
           outcome = Raise e)
    /\ (forall e,
           Structure.validate_pair reference_intervals reference_labels = Ok tt ->
           Structure.validate_pair estimated_intervals estimated_labels = Raise e ->
           outcome = Raise e)
    (* both sequences passed: the final end times are compared, and the
       arguments go to the metric unchanged when they agree *)
    /\ (Structure.validate_pair reference_intervals reference_labels = Ok tt ->
        Structure.validate_pair estimated_intervals estimated_labels = Ok tt ->
        exists reference_end estimated_end,
          Structure.item_m1_1 reference_intervals = Ok reference_end
          /\ Structure.item_m1_1 estimated_intervals = Ok estimated_end
          /\ (allclose reference_end estimated_end = false ->
              outcome = Raise EndError)
          /\ (allclose reference_end estimated_end = true ->
              outcome = wrapped reference_intervals reference_labels
                                estimated_intervals estimated_labels args)).

(** The checks of the structure decorator pass on the four arguments. *)
Definition validated (reference_intervals : ndarray) (reference_labels : list label)
    (estimated_intervals : ndarray) (estimated_labels : list label) : Prop :=
  Structure.validate (fun _ _ _ _ (_ : unit) => Ok tt)
    reference_intervals reference_labels
    estimated_intervals estimated_labels tt = Ok tt.

(** "strictly above diagonal": what [np.triu(M, k=1)] keeps. *)
Definition triu_strict (M : array2 bool) : array2 bool :=
  mkArray2 (shape0 M) (shape1 M)
           (fun i j => if (j <=? i)%nat then false else item M i j).

(** A boolean matrix that is true strictly above the diagonal only. *)
Definition strictly_upper (M : array2 bool) : Prop :=
  forall i j, (i < shape0 M)%nat -> (j < shape1 M)%nat ->
              item M i j = true -> (i < j)%nat.

(** The element-wise conjunction of two arrays of one shape. *)
Definition both_true (A B : array2 bool) : array2 bool :=
  mkArray2 (shape0 A) (shape1 A) (fun i j => item A i j && item B i j).

(** The base-2 conditional entropy H(target | given) of two label
    sequences of one length, from their joint distribution: the sum, over
    the distinct labels [a] of [given] and the distinct labels [b] of
    [target], of  - P(a, b) * log2 (P(a, b) / P(a)),  where P(a, b) is the
    fraction of frames labelled [a] by [given] and [b] by [target], P(a)
    the fraction of frames that [given] labels [a], and a term with
    P(a, b) = 0 counts as 0. *)
Definition joint_probability (given target : list nat) (a b : nat) : R :=
  INR (Structure.count_pair a b (combine given target)) / INR (length given).

Definition marginal_probability (given : list nat) (a : nat) : R :=
  INR (count_occ Nat.eq_dec given a) / INR (length given).

Definition conditional_term (p_joint p_given : R) : R :=
  if Req_dec_T p_joint 0 then 0
  else p_joint * Structure.log2 (p_joint / p_given).

Definition conditional_entropy (given target : list nat) : R :=
  - Rsum (map (fun a =>
                 Rsum (map (fun b =>
                              conditional_term (joint_probability given target a b)
                                               (marginal_probability given a))
                           (Structure.unique target)))
              (Structure.unique given)).

(** H(estimate | reference) and H(reference | estimate) of the frame labels. *)
Definition entropy_est_given_ref (y_ref y_est : list nat) : R :=
  conditional_entropy y_ref y_est.

Definition entropy_ref_given_est (y_ref y_est : list nat) : R :=
  conditional_entropy y_est y_ref.

(** The normalised contingency table of two frame label sequences. *)
Definition normalised_contingency (y_ref y_est : list nat) : array2 R :=
  Structure.divide_scalar
    (mkArray2 (length (Structure.unique y_ref)) (length (Structure.unique y_est))
       (fun i j =>
          INR (Structure.count_pair (nth i (Structure.unique y_ref) 0%nat)
                                    (nth j (Structure.unique y_est) 0%nat)
                                    (combine y_ref y_est))))
    (length y_ref).

(** * Properties *)

(** ** Comparisons and evaluation at concrete numbers *)

Lemma Rltb_true x y : Rltb x y = true <-> x < y.
Proof. unfold Rltb; destruct (Rlt_dec x y); split; intros; auto; discriminate. Qed.

Lemma Rltb_false x y : Rltb x y = false <-> ~ x < y.
Proof.
  unfold Rltb; destruct (Rlt_dec x y); split; intros; auto;
    try discriminate; contradiction.
Qed.

Lemma Rleb_true x y : Rleb x y = true <-> x <= y.
Proof. unfold Rleb; destruct (Rle_dec x y); split; intros; auto; discriminate. Qed.

Lemma Rleb_false x y : Rleb x y = false <-> ~ x <= y.
Proof.
  unfold Rleb; destruct (Rle_dec x y); split; intros; auto;
    try discriminate; contradiction.
Qed.

Ltac Rsolve :=
  first [ lra
        | unfold Rabs, rtol, atol; repeat destruct Rcase_abs; lra ].

(** Decide every comparison of concrete reals in the goal. *)
Ltac Rbool :=
  repeat first
    [ rewrite (proj2 (Rltb_true _ _)) by Rsolve
    | rewrite (proj2 (Rltb_false _ _)) by Rsolve
    | rewrite (proj2 (Rleb_true _ _)) by Rsolve
    | rewrite (proj2 (Rleb_false _ _)) by Rsolve ].

(** Evaluate [Rabs] and [Rmin] at concrete reals, innermost first. *)
Ltac Rnorm :=
  repeat match goal with
    | |- context [Rabs ?x] =>
        first [ rewrite (Rabs_right x) by lra | rewrite (Rabs_left1 x) by lra ]
    | |- context [Rmin ?x ?y] =>
        first [ rewrite (Rmin_left x y) by lra | rewrite (Rmin_right x y) by lra ]
    end.

Ltac Reval :=
  cbn -[Rmin Rabs]; unfold any_negative, allclose; cbn -[Rmin Rabs];
  repeat (progress (Rnorm; Rbool; cbn -[Rmin Rabs])).

Lemma length_zero_iff {A} (v : list A) : (length v =? 0)%nat = true <-> v = [].
Proof. destruct v; cbn; split; intros; auto; discriminate. Qed.

(** ** Boundary metrics *)
Section BoundaryFacts.

Variable intervals_to_boundaries : ndarray -> list R.
Variable match_events : list R -> list R -> R -> list (nat * nat).

Let detection := Boundary.detection intervals_to_boundaries match_events.
Let deviation := Boundary.deviation intervals_to_boundaries.
Let boundaries := Boundary.boundaries intervals_to_boundaries.

(** C4. For two interval sequences that pass the boundary validator, when
    the boundary set of either is empty after the optional trim,
    [detection] returns exactly (0.0, 0.0, 0.0) and [deviation] returns
    exactly (nan, nan); neither raises. *)
Theorem empty_boundaries_sentinels :
  forall (reference_intervals estimated_intervals : ndarray)
         (window beta : R) (trim : bool),
    Boundary.validate_intervals reference_intervals = Ok tt ->
    Boundary.validate_intervals estimated_intervals = Ok tt ->
    boundaries reference_intervals trim = []
    \/ boundaries estimated_intervals trim = [] ->
    detection reference_intervals estimated_intervals window beta trim
      = Ok (Fin 0, Fin 0, Fin 0)
    /\ deviation reference_intervals estimated_intervals trim = Ok (NaN, NaN).
Proof.
  intros ri ei window beta trim Hr He Hempty.
  assert (Hguard :
    ((length (boundaries ri trim) =? 0)%nat
     || (length (boundaries ei trim) =? 0)%nat) = true).
  { apply orb_true_iff.
    destruct Hempty as [H | H]; [left | right]; now apply length_zero_iff. }
  unfold detection, deviation, Boundary.detection, Boundary.deviation,
    Boundary.validate.
  rewrite Hr, He; cbn [bind].
  unfold Boundary.detection_wrapped, Boundary.deviation_wrapped.
  unfold boundaries, Boundary.boundaries in Hguard.
  destruct trim; rewrite Hguard; split; reflexivity.
Qed.

Lemma validate_ok {Args B} (metric : ndarray -> ndarray -> Args -> result B)
    (a b : ndarray) (args : Args) :
  Boundary.validate_intervals a = Ok tt ->
  Boundary.validate_intervals b = Ok tt ->
  Boundary.validate metric a b args = metric a b args.
Proof. intros Ha Hb; unfold Boundary.validate; now rewrite Ha, Hb. Qed.

Lemma guard_false (u v : list R) :
  u <> [] -> v <> [] ->
  ((length u =? 0)%nat || (length v =? 0)%nat) = false.
Proof. destruct u, v; intros; try contradiction; reflexivity. Qed.

Lemma detection_wrapped_eq ri ei window beta trim :
  Boundary.detection_wrapped intervals_to_boundaries match_events ri ei
    (window, beta, trim)
  = let rb := boundaries ri trim in
    let eb := boundaries ei trim in
    if (length rb =? 0)%nat || (length eb =? 0)%nat
    then Ok (Fin 0, Fin 0, Fin 0)
    else
      let k := length (match_events rb eb window) in
      let precision := Fin (INR k / INR (length eb)) in
      let recall := Fin (INR k / INR (length rb)) in
      Ok (precision, recall, Util.f_measure precision recall beta).
Proof. destruct trim; reflexivity. Qed.

Lemma deviation_wrapped_eq ri ei trim :
  Boundary.deviation_wrapped intervals_to_boundaries ri ei trim
  = let rb := boundaries ri trim in
    let eb := boundaries ei trim in
    if (length rb =? 0)%nat || (length eb =? 0)%nat
    then Ok (NaN, NaN)
    else
      let dist := Boundary.abs_subtract_outer rb eb in
      Ok (Boundary.median (Boundary.min_axis1 dist),
          Boundary.median (Boundary.min_axis0 dist)).
Proof. destruct trim; reflexivity. Qed.

(** The distance matrix of the swapped arguments is the transposed one, so
    the reductions along the two axes change places. *)
Lemma min_axis0_swap (a b : list R) :
  Boundary.min_axis0 (Boundary.abs_subtract_outer a b)
  = Boundary.min_axis1 (Boundary.abs_subtract_outer b a).
Proof.
  unfold Boundary.min_axis0, Boundary.min_axis1; cbn.
  apply map_ext; intros j. f_equal.
  apply map_ext; intros i. apply Rabs_minus_sym.
Qed.

(** Every matching uses each reference boundary at most once, so it has no
    more pairs than there are reference boundaries. *)
Lemma matching_length_le (ref est : list R) (window : R) (m : list (nat * nat)) :
  Util.matching ref est window m -> (length m <= length ref)%nat.
Proof.
  intros (Hfst & _ & Hin).
  rewrite <- (length_map fst m), <- (length_seq (length ref) 0).
  apply NoDup_incl_length; [exact Hfst |].
  intros i Hi. apply in_map_iff in Hi. destruct Hi as ((i', j) & Heq & Hm).
  cbn in Heq; subst i'. apply in_seq. destruct (Hin i j Hm) as (H & _). lia.
Qed.

Lemma maximum_matching_length (ref est : list R) (window : R)
    (m m' : list (nat * nat)) :
  Util.maximum_matching ref est window m ->
  Util.maximum_matching ref est window m' ->
  length m = length m'.
Proof.
  intros (Hm & Hmax) (Hm' & Hmax').
  apply Nat.le_antisymm; [apply Hmax', Hm | apply Hmax, Hm'].
Qed.

(** C6. For two interval sequences that pass the boundary validator and
    have non-empty boundary sets after the optional trim, when
    [match_events] returns a maximum matching of the two boundary sets
    under the window, as its contract says, [detection] returns
    precision = k / |estimated boundaries|, recall = k / |reference
    boundaries| and f_measure = (1+beta^2)*P*R / (beta^2*P + R), or 0 when
    that denominator is 0, where k is the size of the maximum matching. *)
Theorem detection_scores :
  forall (reference_intervals estimated_intervals : ndarray)
         (window beta : R) (trim : bool) (k : nat),
    Boundary.validate_intervals reference_intervals = Ok tt ->
    Boundary.validate_intervals estimated_intervals = Ok tt ->
    boundaries reference_intervals trim <> [] ->
    boundaries estimated_intervals trim <> [] ->
    Util.maximum_matching
      (boundaries reference_intervals trim)
      (boundaries estimated_intervals trim) window
      (match_events (boundaries reference_intervals trim)
                    (boundaries estimated_intervals trim) window) ->
    (exists m,
        Util.maximum_matching
          (boundaries reference_intervals trim)
          (boundaries estimated_intervals trim) window m
        /\ length m = k) ->
    let P := INR k / INR (length (boundaries estimated_intervals trim)) in
    let R := INR k / INR (length (boundaries reference_intervals trim)) in
    detection reference_intervals estimated_intervals window beta trim
    = Ok (Fin P, Fin R,
          if Req_dec_T (beta ^ 2 * P + R) 0 then Fin 0
          else Fin ((1 + beta ^ 2) * P * R / (beta ^ 2 * P + R))).
Proof.
  intros ri ei window beta trim k Hr He Hrb Heb Hmax (m & Hm & Hk) P R.
  unfold detection, Boundary.detection.
  rewrite validate_ok by assumption.
  rewrite detection_wrapped_eq; cbv zeta.
  rewrite guard_false by assumption.
  rewrite (maximum_matching_length _ _ _ _ _ Hmax Hm), Hk.
  reflexivity.
Qed.

(** C7. For two interval sequences that pass the boundary validator,
    [deviation] returns a pair, and with the arguments swapped it returns
    the same two values in the other order. *)
Theorem deviation_swap :
  forall (a b : ndarray) (trim : bool),
    Boundary.validate_intervals a = Ok tt ->
    Boundary.validate_intervals b = Ok tt ->
    (exists x y, deviation a b trim = Ok (x, y))
    /\ forall x y, deviation a b trim = Ok (x, y) ->
                   deviation b a trim = Ok (y, x).
Proof.
  intros a b trim Ha Hb.
  unfold deviation, Boundary.deviation.
  rewrite !validate_ok by assumption.
  rewrite !deviation_wrapped_eq; cbv zeta.
  rewrite (orb_comm (Nat.eqb (length (boundaries b trim)) 0)
                    (Nat.eqb (length (boundaries a trim)) 0)).
  destruct ((length (boundaries a trim) =? 0)%nat
            || (length (boundaries b trim) =? 0)%nat).
  - split; [now exists NaN, NaN |].
    intros x y H; injection H as <- <-; reflexivity.
  - split; [eexists; eexists; reflexivity |].
    intros x y H; injection H as <- <-.
    now rewrite min_axis0_swap, <- min_axis0_swap.
Qed.

End BoundaryFacts.

Lemma empty_boundaries_sentinels_witness :
  Boundary.detection Util.intervals_to_boundaries Util.match_events
    (Rows2 [(0, 10)]) (Rows2 [(0, 5); (5, 10)]) (1 / 2) 1 true
    = Ok (Fin 0, Fin 0, Fin 0)
  /\ Boundary.deviation Util.intervals_to_boundaries
       (Rows2 [(0, 10)]) (Rows2 [(0, 5); (5, 10)]) true
     = Ok (NaN, NaN).
Proof.
  apply empty_boundaries_sentinels.
  - Reval. reflexivity.
  - Reval. reflexivity.
  - left. unfold Boundary.boundaries. Reval. reflexivity.
Defined.

(** Evaluation of the modelled helpers on the boundaries 0, 10, 20. *)
Lemma boundaries_0_10_20 :
  Util.intervals_to_boundaries (Rows2 [(0, 10); (10, 20)]) = [0; 10; 20].
Proof. Reval. reflexivity. Qed.

Lemma match_events_0_10_20 :
  Util.match_events [0; 10; 20] [0; 10; 20] (1 / 2)
  = [(0, 0); (1, 1); (2, 2)]%nat.
Proof. unfold Util.match_events. Reval. reflexivity. Qed.

Lemma maximum_matching_0_10_20 :
  Util.maximum_matching [0; 10; 20] [0; 10; 20] (1 / 2)
    [(0, 0); (1, 1); (2, 2)]%nat.
Proof.
  assert (Hm : Util.matching [0; 10; 20] [0; 10; 20] (1 / 2)
                 [(0, 0); (1, 1); (2, 2)]%nat).
  { repeat split.
    1,2: cbn; repeat constructor; cbn; intuition lia.
    all: cbn in H; intuition (try congruence).
    all: match goal with H : (_, _) = (_, _) |- _ => injection H as <- <- end.
    all: cbn; try lia; Rsolve. }
  split; [exact Hm |].
  intros m' Hm'. apply matching_length_le in Hm'. exact Hm'.
Qed.

Lemma detection_scores_witness :
  let ref := Rows2 [(0, 10); (10, 20)] in
  let P := INR 3 / INR (length (Boundary.boundaries Util.intervals_to_boundaries ref false)) in
  Boundary.detection Util.intervals_to_boundaries Util.match_events
    ref ref (1 / 2) 1 false
  = Ok (Fin P, Fin P,
        if Req_dec_T (1 ^ 2 * P + P) 0 then Fin 0
        else Fin ((1 + 1 ^ 2) * P * P / (1 ^ 2 * P + P))).
Proof.
  intros ref P.
  apply (detection_scores Util.intervals_to_boundaries Util.match_events
           ref ref (1 / 2) 1 false 3%nat).
  - Reval. reflexivity.
  - Reval. reflexivity.
  - unfold Boundary.boundaries, ref. rewrite boundaries_0_10_20. discriminate.
  - unfold Boundary.boundaries, ref. rewrite boundaries_0_10_20. discriminate.
  - unfold Boundary.boundaries, ref.
    rewrite boundaries_0_10_20, match_events_0_10_20.
    exact maximum_matching_0_10_20.
  - exists [(0, 0); (1, 1); (2, 2)]%nat.
    unfold Boundary.boundaries, ref. rewrite boundaries_0_10_20.
    split; [exact maximum_matching_0_10_20 | reflexivity].
Defined.

Lemma deviation_swap_witness :
  let a := Rows2 [(0, 10); (10, 20)] in
  let b := Rows2 [(0, 4); (4, 12); (12, 20)] in
  (exists x y, Boundary.deviation Util.intervals_to_boundaries a b false = Ok (x, y))
  /\ forall x y,
       Boundary.deviation Util.intervals_to_boundaries a b false = Ok (x, y) ->
       Boundary.deviation Util.intervals_to_boundaries b a false = Ok (y, x).
Proof.
  intros a b.
  apply (deviation_swap Util.intervals_to_boundaries a b false).
  - Reval. reflexivity.
  - Reval. reflexivity.
Defined.

(** The boundaries 0, 10, 20 against 0, 4, 12, 20: every reference boundary
    but one has an estimated boundary on it, the estimated boundaries lie
    0, 4, 2 and 0 away from the nearest reference boundary. *)
Example deviation_example :
  Boundary.deviation Util.intervals_to_boundaries
    (Rows2 [(0, 10); (10, 20)]) (Rows2 [(0, 4); (4, 12); (12, 20)]) false
  = Ok (Fin 0, Fin 1).
Proof.
  unfold Boundary.deviation, Boundary.validate.
  Reval. unfold Boundary.deviation_wrapped. Reval.
  unfold Boundary.median, Boundary.min_axis0, Boundary.min_axis1. Reval.
  do 2 f_equal; f_equal; lra.
Qed.

Example deviation_example_swapped :
  Boundary.deviation Util.intervals_to_boundaries
    (Rows2 [(0, 4); (4, 12); (12, 20)]) (Rows2 [(0, 10); (10, 20)]) false
  = Ok (Fin 1, Fin 0).
Proof.
  unfold Boundary.deviation, Boundary.validate.
  Reval. unfold Boundary.deviation_wrapped. Reval.
  unfold Boundary.median, Boundary.min_axis0, Boundary.min_axis1. Reval.
  do 2 f_equal; f_equal; lra.
Qed.

(** ** The structure validator *)

Lemma validate_pair_label_count (intervals : ndarray) (labels : list label) :
  Structure.n_rows intervals <> length labels ->
  is_error (Structure.validate_pair intervals labels).
Proof.
  intros Hn. unfold Structure.validate_pair.
  destruct (Structure.validate_intervals intervals) as [[] | e]; cbn; [| exact I].
  apply Nat.eqb_neq in Hn. rewrite Hn. exact I.
Qed.

Lemma validate_pair_start (row : R * R) (rows : list (R * R)) (labels : list label) :
  allclose (fst row) 0 = false ->
  is_error (Structure.validate_pair (Rows2 (row :: rows)) labels).
Proof.
  intros Hs. unfold Structure.validate_pair.
  destruct (Structure.validate_intervals _) as [[] | e]; cbn [bind]; [| exact I].
  destruct (Structure.n_rows _ =? length labels)%nat; cbn; [| exact I].
  rewrite Hs. exact I.
Qed.

(** What one (intervals, labels) pair has to satisfy: no duration enters. *)
Lemma validate_pair_ok (row : R * R) (rows : list (R * R)) (labels : list label) :
  Structure.validate_pair (Rows2 (row :: rows)) labels = Ok tt
  <-> any_negative (row :: rows) = false
      /\ length (row :: rows) = length labels
      /\ allclose (fst row) 0 = true.
Proof.
  unfold Structure.validate_pair, Structure.validate_intervals.
  cbn [Structure.n_rows Structure.item_0_0].
  destruct (any_negative (row :: rows)); cbn [bind].
  - split; [discriminate | intros (H & _); discriminate].
  - destruct (Nat.eqb_spec (length (row :: rows)) (length labels)) as [Hl | Hl];
      cbn [bind].
    + destruct (allclose (fst row) 0).
      * split; auto.
      * split; [discriminate | intros (_ & _ & H); discriminate].
    + split; [discriminate | intros (_ & H & _); contradiction].
Qed.

Lemma validate_pair_no_rows (labels : list label) :
  is_error (Structure.validate_pair (Rows2 []) labels).
Proof.
  unfold Structure.validate_pair; cbn.
  destruct (length labels); exact I.
Qed.

Lemma validate_contract {Args B : Type}
    (metric : ndarray -> list label -> ndarray -> list label -> Args -> result B) :
  validator_contract (Structure.validate metric) metric.
Proof.
  intros ri rl ei el args outcome. subst outcome.
  unfold Structure.validate.
  repeat split.
  - intros [H | H].
    + apply validate_pair_label_count in H.
      destruct (Structure.validate_pair ri rl); [contradiction | exact I].
    + apply validate_pair_label_count in H.
      destruct (Structure.validate_pair ri rl); [| exact I]. cbn [bind].
      destruct (Structure.validate_pair ei el); [contradiction | exact I].
  - intros row rows [-> | ->] Hs.
    + apply (validate_pair_start _ rows rl) in Hs.
      destruct (Structure.validate_pair _ rl); [contradiction | exact I].
    + apply (validate_pair_start _ rows el) in Hs.
      destruct (Structure.validate_pair ri rl); [| exact I]. cbn [bind].
      destruct (Structure.validate_pair _ el); [contradiction | exact I].
  - intros e ->. reflexivity.
  - intros e -> ->. reflexivity.
  - intros Hr He. rewrite Hr, He; cbn [bind].
    destruct ri as [[| rrow rrows] |].
    2: destruct ei as [[| erow erows] |].
    + pose proof (validate_pair_no_rows rl) as H. rewrite Hr in H. contradiction.
    + pose proof (validate_pair_no_rows el) as H. rewrite He in H. contradiction.
    + cbn [Structure.item_m1_1 bind].
      exists (snd (last rrows rrow)), (snd (last erows erow)).
      repeat split; intros ->; reflexivity.
    + discriminate He.
    + discriminate Hr.
Qed.

Section StructureValidator.

Variable intervals_to_samples :
  ndarray -> list label -> R -> list R * list sample_label.
Variable index_labels : list sample_label -> list nat * list sample_label.
Variable adjusted_rand_score : list nat -> list nat -> float.
Variable mutual_info_score : list nat -> list nat -> float.
Variable adjusted_mutual_info_score : list nat -> list nat -> float.
Variable normalized_mutual_info_score : list nat -> list nat -> float.

(** C5. One (intervals, labels) pair passes its checks exactly when no time
    is negative, there are as many labels as intervals and the first
    interval starts at about 0.0: durations are not looked at.  Each of
    [pairwise], [ari], [mutual_information] and [nce] raises when a label
    count differs from the interval count, raises when a first interval
    does not start at about 0.0, compares the final end times only after
    both pairs have passed (raising when they differ beyond the tolerance),
    and otherwise hands its arguments to the metric. *)
Theorem structure_validator :
  (forall (row : R * R) (rows : list (R * R)) (labels : list label),
      Structure.validate_pair (Rows2 (row :: rows)) labels = Ok tt
      <-> any_negative (row :: rows) = false
          /\ length (row :: rows) = length labels
          /\ allclose (fst row) 0 = true)
  /\ validator_contract
       (fun ri rl ei el args =>
          Structure.pairwise intervals_to_samples index_labels
            ri rl ei el (fst args) (snd args))
       (fun ri rl ei el args =>
          Structure.pairwise_wrapped intervals_to_samples index_labels
            ri rl ei el (fst args, snd args))
  /\ validator_contract
       (Structure.ari intervals_to_samples index_labels adjusted_rand_score)
       (Structure.ari_wrapped intervals_to_samples index_labels
          adjusted_rand_score)
  /\ validator_contract
       (Structure.mutual_information intervals_to_samples index_labels
          mutual_info_score adjusted_mutual_info_score
          normalized_mutual_info_score)
       (Structure.mutual_information_wrapped intervals_to_samples index_labels
          mutual_info_score adjusted_mutual_info_score
          normalized_mutual_info_score)
  /\ validator_contract
       (fun ri rl ei el args =>
          Structure.nce intervals_to_samples index_labels
            ri rl ei el (fst args) (snd args))
       (fun ri rl ei el args =>
          Structure.nce_wrapped intervals_to_samples index_labels
            ri rl ei el (fst args, snd args)).
Proof.
  split; [exact validate_pair_ok |].
  split; [| split; [| split]].
  - intros ri rl ei el args.
    exact (validate_contract
             (Structure.pairwise_wrapped intervals_to_samples index_labels)
             ri rl ei el (fst args, snd args)).
  - apply validate_contract.
  - apply validate_contract.
  - intros ri rl ei el args.
    exact (validate_contract
             (Structure.nce_wrapped intervals_to_samples index_labels)
             ri rl ei el (fst args, snd args)).
Qed.

End StructureValidator.

Lemma structure_validator_witness :
  let pairwise :=
    Structure.pairwise Util.intervals_to_samples Util.index_labels in
  Structure.validate_pair (Rows2 [(0, 5); (5, 3)]) ["a"; "b"]%string = Ok tt
  /\ is_error (pairwise (Rows2 [(0, 5)]) [] (Rows2 [(0, 5)]) ["x"%string] 1 1)
  /\ is_error (pairwise (Rows2 [(0, 5)]) ["a"%string]
                        (Rows2 [(1, 5)]) ["x"%string] 1 1)
  /\ pairwise (Rows2 [(0, 5); (5, 3)]) ["a"; "b"]%string
              (Rows2 [(0, 4)]) ["x"%string] 1 1
     = Raise EndError.
Proof.
  intros pairwise.
  destruct (structure_validator Util.intervals_to_samples Util.index_labels
              (fun _ _ => NaN) (fun _ _ => NaN) (fun _ _ => NaN)
              (fun _ _ => NaN))
    as (Hpair & Hpairwise & _).
  split; [| split; [| split]].
  - apply (proj2 (Hpair _ _ _)). Reval. auto.
  - destruct (Hpairwise (Rows2 [(0, 5)]) [] (Rows2 [(0, 5)]) ["x"%string] (1, 1))
      as (Hcount & _).
    apply Hcount. left. cbn. discriminate.
  - destruct (Hpairwise (Rows2 [(0, 5)]) ["a"%string]
                        (Rows2 [(1, 5)]) ["x"%string] (1, 1))
      as (_ & Hstart & _).
    apply (Hstart (1, 5) []); [now right |]. Reval. reflexivity.
  - destruct (Hpairwise (Rows2 [(0, 5); (5, 3)]) ["a"; "b"]%string
                        (Rows2 [(0, 4)]) ["x"%string] (1, 1))
      as (_ & _ & _ & _ & Hend).
    destruct Hend as (re & ee & Hre & Hee & Hdiffer & _).
    + apply (proj2 (Hpair _ _ _)). Reval. auto.
    + apply (proj2 (Hpair _ _ _)). Reval. auto.
    + apply Hdiffer. cbn in Hre, Hee.
      injection Hre as <-. injection Hee as <-. Reval. reflexivity.
Defined.

(** ** Counting in boolean matrices *)

Lemma nat_sum_ext_in {A} (f g : A -> nat) (v : list A) :
  (forall x, In x v -> f x = g x) ->
  nat_sum (map f v) = nat_sum (map g v).
Proof. intros H. f_equal. now apply map_ext_in. Qed.

Lemma nat_sum_add {A} (f g : A -> nat) (v : list A) :
  nat_sum (map (fun x => f x + g x)%nat v)
  = (nat_sum (map f v) + nat_sum (map g v))%nat.
Proof.
  unfold nat_sum. induction v as [| x v IH]; cbn; [reflexivity | rewrite IH; lia].
Qed.

Lemma nat_sum_ones {A} (v : list A) :
  nat_sum (map (fun _ => 1%nat) v) = length v.
Proof.
  unfold nat_sum. induction v as [| x v IH]; cbn; [reflexivity | now rewrite IH].
Qed.

(** Along one row, exactly one column is the diagonal one. *)
Lemma nat_sum_diagonal (i start n : nat) :
  nat_sum (map (fun j => if (j =? i)%nat then 1%nat else 0%nat) (seq start n))
  = if ((start <=? i) && (i <? start + n))%nat then 1%nat else 0%nat.
Proof.
  unfold nat_sum.
  revert start. induction n as [| n IH]; intros start; cbn [seq map fold_right].
  - destruct (Nat.leb_spec start i), (Nat.ltb_spec i (start + 0)); cbn; lia.
  - rewrite IH.
    destruct (Nat.eqb_spec start i), (Nat.leb_spec start i),
      (Nat.leb_spec (S start) i), (Nat.ltb_spec i (start + S n)),
      (Nat.ltb_spec i (S start + n)); cbn; lia.
Qed.

Lemma asum_ext (X Y : array2 bool) :
  shape0 X = shape0 Y -> shape1 X = shape1 Y ->
  (forall i j, (i < shape0 X)%nat -> (j < shape1 X)%nat ->
               item X i j = item Y i j) ->
  Structure.asum X = Structure.asum Y.
Proof.
  intros H0 H1 H. unfold Structure.asum. rewrite <- H0, <- H1.
  apply nat_sum_ext_in; intros i Hi. apply in_seq in Hi.
  apply nat_sum_ext_in; intros j Hj. apply in_seq in Hj.
  rewrite H by lia. reflexivity.
Qed.

(** A square matrix with a true diagonal: what [np.triu] keeps is the
    diagonal and what lies strictly above it. *)
Lemma asum_triu_diagonal (M : array2 bool) :
  shape1 M = shape0 M ->
  (forall i, (i < shape0 M)%nat -> item M i i = true) ->
  Structure.asum (Structure.triu M)
  = (shape0 M + Structure.asum (triu_strict M))%nat.
Proof.
  intros Hsq Hdiag. unfold Structure.asum, Structure.triu, triu_strict.
  cbn [shape0 shape1 item]. rewrite Hsq.
  set (above := fun i =>
         nat_sum (map (fun j => if if (j <=? i)%nat then false else item M i j
                                then 1%nat else 0%nat)
                      (seq 0 (shape0 M)))).
  transitivity (nat_sum (map (fun i => (1 + above i)%nat) (seq 0 (shape0 M)))).
  2: { rewrite nat_sum_add, nat_sum_ones, length_seq. reflexivity. }
  apply nat_sum_ext_in; intros i Hi. apply in_seq in Hi. unfold above.
  rewrite <- (nat_sum_ext_in
                (fun j => ((if (j =? i)%nat then 1 else 0)
                           + (if if (j <=? i)%nat then false else item M i j
                              then 1 else 0))%nat)).
  - rewrite nat_sum_add, nat_sum_diagonal.
    destruct (Nat.leb_spec 0 i), (Nat.ltb_spec i (0 + shape0 M)); cbn; lia.
  - intros j Hj.
    destruct (Nat.eqb_spec j i) as [-> | Hne].
    + rewrite Nat.ltb_irrefl, Nat.leb_refl, Hdiag by lia. reflexivity.
    + destruct (Nat.ltb_spec j i), (Nat.leb_spec j i); try lia; reflexivity.
Qed.

Lemma equal_outer_diagonal (y : list nat) (i : nat) :
  item (Structure.equal_outer y y) i i = true.
Proof. cbn. apply Nat.eqb_refl. Qed.

Lemma asum_agree (y : list nat) :
  Structure.asum (Structure.triu (Structure.equal_outer y y))
  = (length y + Structure.asum (triu_strict (Structure.equal_outer y y)))%nat.
Proof.
  apply (asum_triu_diagonal (Structure.equal_outer y y)); [reflexivity |].
  intros i _. apply equal_outer_diagonal.
Qed.

(** Arrays of one shape are combined element by element. *)
Lemma logical_and_same_shape (A B : array2 bool) :
  shape0 A = shape0 B -> shape1 A = shape1 B ->
  exists X,
    Structure.logical_and A B = Ok X
    /\ shape0 X = shape0 A /\ shape1 X = shape1 A
    /\ forall i j, (i < shape0 A)%nat -> (j < shape1 A)%nat ->
                   item X i j = item A i j && item B i j.
Proof.
  intros H0 H1. unfold Structure.logical_and, Structure.broadcast_dim.
  rewrite <- H0, <- H1, !Nat.eqb_refl.
  eexists; split; [reflexivity |]. cbn. repeat split.
  intros i j Hi Hj.
  destruct (Nat.eqb_spec (shape0 A) 1) as [E0 | _],
           (Nat.eqb_spec (shape1 A) 1) as [E1 | _];
    repeat match goal with
           | H : (?k < shape0 A)%nat, E : shape0 A = 1%nat |- _ =>
               assert (k = 0%nat) by lia; clear H; subst k
           | H : (?k < shape1 A)%nat, E : shape1 A = 1%nat |- _ =>
               assert (k = 0%nat) by lia; clear H; subst k
           end; reflexivity.
Qed.

(** The only exception [A & B] raises is the broadcasting one. *)
Lemma logical_and_cases (A B : array2 bool) :
  (exists X, Structure.logical_and A B = Ok X)
  \/ Structure.logical_and A B = Raise BroadcastError.
Proof.
  unfold Structure.logical_and.
  destruct (Structure.broadcast_dim (shape0 A) (shape0 B));
    [destruct (Structure.broadcast_dim (shape1 A) (shape1 B)) |]; eauto.
Qed.

Lemma asum_logical_and_agree (y_ref y_est : list nat) :
  length y_ref = length y_est ->
  exists X,
    Structure.logical_and
      (Structure.triu (Structure.equal_outer y_ref y_ref))
      (Structure.triu (Structure.equal_outer y_est y_est)) = Ok X
    /\ Structure.asum X
       = (length y_ref
          + Structure.asum
              (triu_strict (both_true (Structure.equal_outer y_ref y_ref)
                                      (Structure.equal_outer y_est y_est))))%nat.
Proof.
  intros Hlen.
  destruct (logical_and_same_shape
              (Structure.triu (Structure.equal_outer y_ref y_ref))
              (Structure.triu (Structure.equal_outer y_est y_est)))
    as (X & HX & HX0 & HX1 & Hitem); cbn; auto.
  exists X; split; [exact HX |].
  transitivity
    (Structure.asum
       (Structure.triu (both_true (Structure.equal_outer y_ref y_ref)
                                  (Structure.equal_outer y_est y_est)))).
  - apply asum_ext; cbn [Structure.triu Structure.equal_outer both_true
                         shape0 shape1 item] in *; auto.
    intros i j Hi Hj. rewrite Hitem by lia.
    destruct (j <? i)%nat; reflexivity.
  - apply (asum_triu_diagonal
             (both_true (Structure.equal_outer y_ref y_ref)
                        (Structure.equal_outer y_est y_est))).
    + reflexivity.
    + intros i _. cbn. now rewrite !Nat.eqb_refl.
Qed.

(** ** Pairwise frame agreement *)

Lemma allclose_refl (a : R) : allclose a a = true.
Proof.
  unfold allclose. apply Rleb_true.
  replace (a - a) with 0 by lra. rewrite Rabs_R0.
  pose proof (Rabs_pos a). unfold atol, rtol. nra.
Qed.

Lemma validated_run {Args B : Type}
    (metric : ndarray -> list label -> ndarray -> list label -> Args -> result B)
    (ri : ndarray) (rl : list label) (ei : ndarray) (el : list label)
    (args : Args) :
  validated ri rl ei el ->
  Structure.validate metric ri rl ei el args = metric ri rl ei el args.
Proof.
  unfold validated, Structure.validate. intros H.
  destruct (Structure.validate_pair ri rl) as [[] | ?]; [| discriminate H].
  destruct (Structure.validate_pair ei el) as [[] | ?]; [| discriminate H].
  cbn [bind] in *.
  destruct (Structure.item_m1_1 ri); [| discriminate H].
  destruct (Structure.item_m1_1 ei); [| discriminate H].
  cbn [bind] in *.
  destruct (allclose _ _); [reflexivity | discriminate H].
Qed.

Lemma validated_same (intervals : ndarray) (labels : list label) :
  Structure.validate_pair intervals labels = Ok tt ->
  validated intervals labels intervals labels.
Proof.
  intros H. unfold validated, Structure.validate. rewrite H; cbn [bind].
  destruct intervals as [[| row rows] |].
  - pose proof (validate_pair_no_rows labels) as E. rewrite H in E. contradiction.
  - cbn [Structure.item_m1_1 bind]. now rewrite allclose_refl.
  - discriminate H.
Qed.

(** In [pairwise] a denominator is 0 only when the matches are: the one
    division by zero that can be reached is [0.0 / 0]. *)
Lemma asum_no_rows (X : array2 bool) : shape0 X = 0%nat -> Structure.asum X = 0%nat.
Proof. intros H. unfold Structure.asum. now rewrite H. Qed.

Lemma matches_zero_with_denominator (y_ref y_est : list nat) (X : array2 bool) :
  Structure.logical_and
    (Structure.triu (Structure.equal_outer y_ref y_ref))
    (Structure.triu (Structure.equal_outer y_est y_est)) = Ok X ->
  Structure.asum (Structure.triu (Structure.equal_outer y_ref y_ref)) = 0%nat
  \/ Structure.asum (Structure.triu (Structure.equal_outer y_est y_est)) = 0%nat ->
  Structure.asum X = 0%nat.
Proof.
  unfold Structure.logical_and, Structure.broadcast_dim.
  cbn [Structure.triu Structure.equal_outer shape0 shape1].
  intros HX Hzero.
  assert (Hempty : length y_ref = 0%nat \/ length y_est = 0%nat).
  { destruct Hzero as [H | H]; rewrite asum_agree in H; lia. }
  apply asum_no_rows.
  destruct (Nat.eqb_spec (length y_ref) (length y_est));
    [| destruct (Nat.eqb_spec (length y_ref) 1);
       [| destruct (Nat.eqb_spec (length y_est) 1)]];
    try discriminate HX; injection HX as <-; cbn [shape0]; lia.
Qed.

Lemma true_divide_pos (x : R) (n : nat) :
  (0 < n)%nat -> Structure.true_divide x n = Fin (x / INR n).
Proof. destruct n; [lia | reflexivity]. Qed.

Section PairwiseFacts.

Variable intervals_to_samples :
  ndarray -> list label -> R -> list R * list sample_label.
Variable index_labels : list sample_label -> list nat * list sample_label.

Let frame_ids := Structure.frame_ids intervals_to_samples index_labels.
Let pairwise := Structure.pairwise intervals_to_samples index_labels.

(** C1, as the code has it.  The two same-cluster matrices of [pairwise]
    are upper-triangular with the diagonal kept: an element (i, j) can be
    true only for i <= j, every diagonal element (i, i) is true, and each
    matrix holds one true element per frame besides those strictly above
    the diagonal.  So on a validated input whose two frame counts agree,
    the self-pairs are counted in the matches and in both denominators. *)
Theorem pairwise_counts_self_pairs :
  forall (reference_intervals : ndarray) (reference_labels : list label)
         (estimated_intervals : ndarray) (estimated_labels : list label)
         (frame_size beta : R),
    validated reference_intervals reference_labels
              estimated_intervals estimated_labels ->
    let y_ref := frame_ids reference_intervals reference_labels frame_size in
    let y_est := frame_ids estimated_intervals estimated_labels frame_size in
    let same_ref := Structure.equal_outer y_ref y_ref in
    let same_est := Structure.equal_outer y_est y_est in
    let agree_ref := Structure.triu same_ref in
    let agree_est := Structure.triu same_est in
    (forall i j, item agree_ref i j = true -> (i <= j)%nat)
    /\ (forall i j, item agree_est i j = true -> (i <= j)%nat)
    /\ (forall i, (i < length y_ref)%nat -> item agree_ref i i = true)
    /\ (forall i, (i < length y_est)%nat -> item agree_est i i = true)
    /\ Structure.asum agree_ref
       = (length y_ref + Structure.asum (triu_strict same_ref))%nat
    /\ Structure.asum agree_est
       = (length y_est + Structure.asum (triu_strict same_est))%nat
    /\ (length y_ref = length y_est ->
        let matches :=
          (length y_ref
           + Structure.asum (triu_strict (both_true same_ref same_est)))%nat in
        let precision :=
          Structure.true_divide (INR matches) (Structure.asum agree_est) in
        let recall :=
          Structure.true_divide (INR matches) (Structure.asum agree_ref) in
        pairwise reference_intervals reference_labels
                 estimated_intervals estimated_labels frame_size beta
        = Ok (precision, recall, Util.f_measure precision recall beta)).
Proof.
  intros ri rl ei el frame_size beta Hvalid
         y_ref y_est same_ref same_est agree_ref agree_est.
  assert (Hupper : forall y i j,
             item (Structure.triu (Structure.equal_outer y y)) i j = true ->
             (i <= j)%nat).
  { intros y i j. cbn [Structure.triu Structure.equal_outer item].
    destruct (Nat.ltb_spec j i); [discriminate | lia]. }
  assert (Hdiag : forall y i,
             item (Structure.triu (Structure.equal_outer y y)) i i = true).
  { intros y i. cbn [Structure.triu Structure.equal_outer item].
    now rewrite Nat.ltb_irrefl, Nat.eqb_refl. }
  repeat split; try (intros; apply Hdiag); try apply Hupper; try apply asum_agree.
  intros Hlen matches precision recall.
  unfold pairwise, Structure.pairwise. rewrite validated_run by exact Hvalid.
  unfold Structure.pairwise_wrapped.
  destruct (asum_logical_and_agree y_ref y_est Hlen) as (X & HX & Hsum).
  fold frame_ids. fold y_ref y_est. rewrite HX; cbn [bind]. rewrite Hsum.
  reflexivity.
Qed.

(** C9. On a validated input whose frame sampling yields at least one
    frame, [agree_est.sum()] and [agree_ref.sum()] are at least the frame
    count, hence positive: the two divisions of [pairwise] have non-zero
    denominators, and whenever [pairwise] returns, its precision and recall
    are finite numbers. *)
Theorem pairwise_denominators_positive :
  forall (reference_intervals : ndarray) (reference_labels : list label)
         (estimated_intervals : ndarray) (estimated_labels : list label)
         (frame_size beta : R),
    validated reference_intervals reference_labels
              estimated_intervals estimated_labels ->
    let y_ref := frame_ids reference_intervals reference_labels frame_size in
    let y_est := frame_ids estimated_intervals estimated_labels frame_size in
    let agree_ref := Structure.triu (Structure.equal_outer y_ref y_ref) in
    let agree_est := Structure.triu (Structure.equal_outer y_est y_est) in
    y_ref <> [] -> y_est <> [] ->
    (length y_est <= Structure.asum agree_est)%nat
    /\ (length y_ref <= Structure.asum agree_ref)%nat
    /\ (0 < Structure.asum agree_est)%nat
    /\ (0 < Structure.asum agree_ref)%nat
    /\ (forall matches,
           Structure.true_divide matches (Structure.asum agree_est)
           = Fin (matches / INR (Structure.asum agree_est))
           /\ Structure.true_divide matches (Structure.asum agree_ref)
              = Fin (matches / INR (Structure.asum agree_ref)))
    /\ match pairwise reference_intervals reference_labels
                      estimated_intervals estimated_labels frame_size beta with
       | Ok (Fin _, Fin _, _) => True
       | Ok _ => False
       | Raise e => e = BroadcastError
       end.
Proof.
  intros ri rl ei el frame_size beta Hvalid y_ref y_est agree_ref agree_est
         Href Hest.
  assert (Hr : (length y_ref <= Structure.asum agree_ref)%nat)
    by (unfold agree_ref; rewrite asum_agree; lia).
  assert (He : (length y_est <= Structure.asum agree_est)%nat)
    by (unfold agree_est; rewrite asum_agree; lia).
  assert (Hr0 : (0 < Structure.asum agree_ref)%nat)
    by (destruct y_ref; [contradiction | cbn [length] in Hr; lia]).
  assert (He0 : (0 < Structure.asum agree_est)%nat)
    by (destruct y_est; [contradiction | cbn [length] in He; lia]).
  repeat split; try assumption; try (now apply true_divide_pos).
  unfold pairwise, Structure.pairwise. rewrite validated_run by exact Hvalid.
  unfold Structure.pairwise_wrapped. fold frame_ids. fold y_ref y_est.
  fold agree_ref agree_est.
  destruct (logical_and_cases agree_ref agree_est) as [(X & ->) | ->];
    cbn [bind]; [| reflexivity].
  rewrite !true_divide_pos by assumption. exact I.
Qed.

(** C8. A valid (intervals, labels) pair that yields at least one frame,
    given to [pairwise] as both reference and estimate, scores
    precision = recall = f_measure = 1.0. *)
Theorem pairwise_identical :
  forall (intervals : ndarray) (labels : list label) (frame_size beta : R),
    Structure.validate_pair intervals labels = Ok tt ->
    frame_ids intervals labels frame_size <> [] ->
    pairwise intervals labels intervals labels frame_size beta
    = Ok (Fin 1, Fin 1, Fin 1).
Proof.
  intros intervals labels frame_size beta Hvalid Hframes.
  apply validated_same in Hvalid.
  set (y := frame_ids intervals labels frame_size) in *.
  set (agree := Structure.triu (Structure.equal_outer y y)).
  assert (Hpos : (0 < Structure.asum agree)%nat).
  { unfold agree. rewrite asum_agree. destruct y; [contradiction | cbn; lia]. }
  destruct (logical_and_same_shape agree agree eq_refl eq_refl)
    as (X & HX & HX0 & HX1 & Hitem).
  assert (Hsum : Structure.asum X = Structure.asum agree).
  { apply asum_ext; auto. intros i j Hi Hj.
    rewrite Hitem by lia. apply andb_diag. }
  unfold pairwise, Structure.pairwise. rewrite validated_run by exact Hvalid.
  unfold Structure.pairwise_wrapped. fold frame_ids. fold y. fold agree.
  rewrite HX; cbn [bind]. rewrite Hsum, true_divide_pos by exact Hpos.
  assert (Hnz : INR (Structure.asum agree) <> 0) by (apply not_0_INR; lia).
  replace (INR (Structure.asum agree) / INR (Structure.asum agree)) with 1
    by (field; exact Hnz).
  unfold Util.f_measure.
  destruct (Req_dec_T (beta ^ 2 * 1 + 1) 0) as [E | E]; [nra |].
  do 3 f_equal. field. nra.
Qed.

End PairwiseFacts.

(** Evaluation of the modelled helpers: two frames of one second, labelled
    a and b by the reference and both x by the estimate. *)
Lemma frame_ids_a_b :
  Structure.frame_ids Util.intervals_to_samples Util.index_labels
    (Rows2 [(0, 1); (1, 2)]) ["a"; "b"]%string 1 = [0; 1]%nat.
Proof.
  unfold Structure.frame_ids, Util.intervals_to_samples. cbn [last snd].
  rewrite (Zfloor_eq 2) by (split; lra).
  change (Z.to_nat 2) with 2%nat.
  Reval. reflexivity.
Qed.

Lemma frame_ids_x_x :
  Structure.frame_ids Util.intervals_to_samples Util.index_labels
    (Rows2 [(0, 2)]) ["x"%string] 1 = [0; 0]%nat.
Proof.
  unfold Structure.frame_ids, Util.intervals_to_samples. cbn [last snd].
  rewrite (Zfloor_eq 2) by (split; lra).
  change (Z.to_nat 2) with 2%nat.
  Reval. reflexivity.
Qed.

Lemma validated_a_b_x :
  validated (Rows2 [(0, 1); (1, 2)]) ["a"; "b"]%string
            (Rows2 [(0, 2)]) ["x"%string].
Proof.
  unfold validated, Structure.validate, Structure.validate_pair,
    Structure.validate_intervals.
  Reval. reflexivity.
Qed.

(** The reference keeps the two frames apart and the estimate joins them:
    the only pair of distinct frames is no match, and still two matches are
    counted, the two self-pairs. *)
Example pairwise_a_b_x :
  Structure.pairwise Util.intervals_to_samples Util.index_labels
    (Rows2 [(0, 1); (1, 2)]) ["a"; "b"]%string (Rows2 [(0, 2)]) ["x"%string]
    1 1
  = Ok (Fin (2 / 3), Fin 1, Fin (4 / 5)).
Proof.
  unfold Structure.pairwise. rewrite validated_run by exact validated_a_b_x.
  unfold Structure.pairwise_wrapped. rewrite frame_ids_a_b, frame_ids_x_x.
  cbn. unfold Util.f_measure.
  destruct (Req_dec_T _ _) as [E | E]; [exfalso; lra |].
  do 2 f_equal; [f_equal |]; f_equal; field.
Qed.

(** C1 as stated fails: on this validated input both matrices are true on
    their diagonal; the reference matrix has nothing but its diagonal, and
    the two self-pairs are what recall divides by. *)
Lemma pairwise_strictly_upper_counterexample :
  let ri := Rows2 [(0, 1); (1, 2)] in
  let rl := ["a"; "b"]%string in
  let ei := Rows2 [(0, 2)] in
  let el := ["x"%string] in
  let frame_ids :=
    Structure.frame_ids Util.intervals_to_samples Util.index_labels in
  let y_ref := frame_ids ri rl 1 in
  let y_est := frame_ids ei el 1 in
  let agree_ref := Structure.triu (Structure.equal_outer y_ref y_ref) in
  let agree_est := Structure.triu (Structure.equal_outer y_est y_est) in
  validated ri rl ei el
  /\ ~ strictly_upper agree_ref
  /\ ~ strictly_upper agree_est
  /\ Structure.asum agree_ref = 2%nat
  /\ Structure.asum (triu_strict (Structure.equal_outer y_ref y_ref)) = 0%nat
  /\ Structure.pairwise Util.intervals_to_samples Util.index_labels
       ri rl ei el 1 1
     = Ok (Fin (2 / 3), Fin 1, Fin (4 / 5)).
Proof.
  intros ri rl ei el frame_ids y_ref y_est agree_ref agree_est.
  assert (Href : y_ref = [0; 1]%nat) by exact frame_ids_a_b.
  assert (Hest : y_est = [0; 0]%nat) by exact frame_ids_x_x.
  split; [exact validated_a_b_x |].
  split; [| split; [| split; [| split]]].
  - intros H. specialize (H 0%nat 0%nat). unfold agree_ref in H.
    rewrite Href in H. cbn in H. specialize (H ltac:(lia) ltac:(lia) eq_refl).
    lia.
  - intros H. specialize (H 0%nat 0%nat). unfold agree_est in H.
    rewrite Hest in H. cbn in H. specialize (H ltac:(lia) ltac:(lia) eq_refl).
    lia.
  - unfold agree_ref. rewrite Href. reflexivity.
  - rewrite Href. reflexivity.
  - exact pairwise_a_b_x.
Qed.

Lemma pairwise_counts_self_pairs_witness :
  let ri := Rows2 [(0, 1); (1, 2)] in
  let rl := ["a"; "b"]%string in
  let ei := Rows2 [(0, 2)] in
  let el := ["x"%string] in
  let y_ref :=
    Structure.frame_ids Util.intervals_to_samples Util.index_labels ri rl 1 in
  let same_ref := Structure.equal_outer y_ref y_ref in
  validated ri rl ei el
  /\ (forall i, (i < length y_ref)%nat ->
                item (Structure.triu same_ref) i i = true)
  /\ Structure.asum (Structure.triu same_ref)
     = (length y_ref + Structure.asum (triu_strict same_ref))%nat.
Proof.
  intros ri rl ei el y_ref same_ref.
  destruct (pairwise_counts_self_pairs
              Util.intervals_to_samples Util.index_labels
              ri rl ei el 1 1 validated_a_b_x)
    as (_ & _ & Hdiag & _ & Hsum & _).
  split; [exact validated_a_b_x |].
  split; [exact Hdiag | exact Hsum].
Defined.

Lemma pairwise_denominators_positive_witness :
  let ri := Rows2 [(0, 1); (1, 2)] in
  let rl := ["a"; "b"]%string in
  let ei := Rows2 [(0, 2)] in
  let el := ["x"%string] in
  let frame_ids :=
    Structure.frame_ids Util.intervals_to_samples Util.index_labels in
  let y_ref := frame_ids ri rl 1 in
  let y_est := frame_ids ei el 1 in
  validated ri rl ei el /\ y_ref <> [] /\ y_est <> []
  /\ (length y_est
      <= Structure.asum (Structure.triu (Structure.equal_outer y_est y_est)))%nat
  /\ (length y_ref
      <= Structure.asum (Structure.triu (Structure.equal_outer y_ref y_ref)))%nat.
Proof.
  intros ri rl ei el frame_ids y_ref y_est.
  assert (Href : y_ref <> [])
    by (unfold y_ref, frame_ids, ri, rl; rewrite frame_ids_a_b; discriminate).
  assert (Hest : y_est <> [])
    by (unfold y_est, frame_ids, ei, el; rewrite frame_ids_x_x; discriminate).
  destruct (pairwise_denominators_positive
              Util.intervals_to_samples Util.index_labels
              ri rl ei el 1 1 validated_a_b_x Href Hest)
    as (He & Hr & _).
  split; [exact validated_a_b_x |].
  split; [exact Href |]. split; [exact Hest |].
  split; [exact He | exact Hr].
Defined.

Lemma pairwise_identical_witness :
  let intervals := Rows2 [(0, 1); (1, 2)] in
  let labels := ["a"; "b"]%string in
  Structure.validate_pair intervals labels = Ok tt
  /\ Structure.frame_ids Util.intervals_to_samples Util.index_labels
       intervals labels 1 <> []
  /\ Structure.pairwise Util.intervals_to_samples Util.index_labels
       intervals labels intervals labels 1 1
     = Ok (Fin 1, Fin 1, Fin 1).
Proof.
  intros intervals labels.
  assert (Hvalid : Structure.validate_pair intervals labels = Ok tt).
  { apply (proj2 (validate_pair_ok _ _ _)). Reval. auto. }
  assert (Hframes :
    Structure.frame_ids Util.intervals_to_samples Util.index_labels
      intervals labels 1 <> [])
    by (unfold intervals, labels; rewrite frame_ids_a_b; discriminate).
  split; [exact Hvalid | split; [exact Hframes |]].
  exact (pairwise_identical Util.intervals_to_samples Util.index_labels
           intervals labels 1 1 Hvalid Hframes).
Defined.

(** ** Normalized conditional entropy *)

(** [np.unique]: ascending, hence without repetition, and with the same
    elements. *)
Lemma insert_distinct_in (x y : nat) (v : list nat) :
  In y (Structure.insert_distinct x v) <-> y = x \/ In y v.
Proof.
  induction v as [| z v IH]; cbn [Structure.insert_distinct In].
  - intuition congruence.
  - destruct (Nat.ltb_spec x z); [cbn [In]; intuition congruence |].
    destruct (Nat.ltb_spec z x); cbn [In];
      [rewrite IH; intuition congruence |].
    assert (x = z) by lia. subst. intuition congruence.
Qed.

Lemma insert_distinct_sorted (x : nat) (v : list nat) :
  StronglySorted lt v -> StronglySorted lt (Structure.insert_distinct x v).
Proof.
  induction v as [| z v IH]; cbn [Structure.insert_distinct]; intros Hs.
  - repeat constructor.
  - inversion Hs as [| ? ? Hv Hz]; subst.
    destruct (Nat.ltb_spec x z).
    + constructor; [exact Hs |].
      constructor; [assumption |].
      eapply Forall_impl; [| exact Hz]. cbn; intros; lia.
    + destruct (Nat.ltb_spec z x); [| exact Hs].
      constructor; [now apply IH |].
      apply Forall_forall. intros y Hy. apply insert_distinct_in in Hy.
      destruct Hy as [-> | Hy]; [assumption |].
      rewrite Forall_forall in Hz. now apply Hz.
Qed.

Lemma unique_in (v : list nat) (x : nat) :
  In x (Structure.unique v) <-> In x v.
Proof.
  induction v as [| y v IH]; cbn; [reflexivity |].
  rewrite insert_distinct_in, IH. intuition.
Qed.

Lemma unique_sorted (v : list nat) : StronglySorted lt (Structure.unique v).
Proof.
  induction v as [| y v IH]; cbn; [constructor |].
  now apply insert_distinct_sorted.
Qed.

Lemma unique_NoDup (v : list nat) : NoDup (Structure.unique v).
Proof.
  pose proof (unique_sorted v) as Hs.
  induction Hs as [| x l Hl IH Hx]; constructor; [| exact IH].
  intros Hin. rewrite Forall_forall in Hx. specialize (Hx x Hin). lia.
Qed.

(** Sums over a list. *)
Lemma map_nth_seq {A} (f : A -> R) (d : A) (v : list A) :
  map (fun i => f (nth i v d)) (seq 0 (length v)) = map f v.
Proof.
  induction v as [| x v IH]; cbn [length seq map]; [reflexivity |].
  rewrite <- seq_shift, map_map. cbn [nth]. now rewrite IH.
Qed.

Lemma Rsum_ext_in {A} (f g : A -> R) (v : list A) :
  (forall x, In x v -> f x = g x) -> Rsum (map f v) = Rsum (map g v).
Proof. intros H. f_equal. now apply map_ext_in. Qed.

Lemma Rsum_scale {A} (c : R) (f : A -> R) (v : list A) :
  Rsum (map (fun x => c * f x) v) = c * Rsum (map f v).
Proof.
  unfold Rsum. induction v as [| x v IH]; cbn; [ring | rewrite IH; ring].
Qed.

Lemma Rsum_INR {A} (f : A -> nat) (v : list A) :
  Rsum (map (fun x => INR (f x)) v) = INR (nat_sum (map f v)).
Proof.
  unfold Rsum, nat_sum.
  induction v as [| x v IH]; cbn [map fold_right]; [reflexivity |].
  now rewrite IH, plus_INR.
Qed.

Lemma dot_map {A} (f g : A -> R) (v : list A) :
  Structure.dot (map f v) (map g v) = Rsum (map (fun x => f x * g x) v).
Proof.
  unfold Structure.dot, Rsum.
  induction v as [| x v IH]; cbn; [reflexivity | now rewrite <- IH].
Qed.

Lemma nat_sum_zeros {A} (v : list A) :
  nat_sum (map (fun _ => 0%nat) v) = 0%nat.
Proof. unfold nat_sum. induction v; cbn; auto. Qed.

(** Among distinct values that contain [x], exactly one equals [x]. *)
Lemma nat_sum_one_hit (x : nat) (bs : list nat) :
  NoDup bs -> In x bs ->
  nat_sum (map (fun b => if (x =? b)%nat then 1%nat else 0%nat) bs) = 1%nat.
Proof.
  unfold nat_sum. intros Hnd. induction Hnd as [| b bs Hb Hnd IH]; cbn.
  - contradiction.
  - intros [-> | Hin].
    + rewrite Nat.eqb_refl.
      assert (E : fold_right Nat.add 0%nat
                    (map (fun b => if (x =? b)%nat then 1%nat else 0%nat) bs)
                  = 0%nat).
      { clear IH Hnd. induction bs as [| c bs IH]; cbn; [reflexivity |].
        destruct (Nat.eqb_spec x c) as [-> | _].
        - exfalso. apply Hb. now left.
        - apply IH. intros H. apply Hb. now right. }
      rewrite E. reflexivity.
    + destruct (Nat.eqb_spec x b) as [-> | _]; [contradiction |].
      now apply IH.
Qed.

(** The row of the contingency table for the label [a] adds up to the
    number of frames the reference labels [a]. *)
Lemma count_pair_row (a : nat) (bs : list nat) (pairs : list (nat * nat)) :
  NoDup bs -> (forall p, In p pairs -> In (snd p) bs) ->
  nat_sum (map (fun b => Structure.count_pair a b pairs) bs)
  = length (filter (fun p => (fst p =? a)%nat) pairs).
Proof.
  intros Hnd. induction pairs as [| p pairs IH]; intros Hin.
  - unfold Structure.count_pair; cbn [filter length]. apply nat_sum_zeros.
  - rewrite (nat_sum_ext_in _
               (fun b => ((if (fst p =? a)%nat
                           then if (snd p =? b)%nat then 1 else 0
                           else 0)
                          + Structure.count_pair a b pairs)%nat)).
    + rewrite nat_sum_add, IH by (intros; apply Hin; now right).
      cbn [filter]. destruct (fst p =? a)%nat.
      * rewrite nat_sum_one_hit; [reflexivity | exact Hnd |].
        apply Hin. now left.
      * now rewrite nat_sum_zeros.
    + intros b _. unfold Structure.count_pair. cbn [filter].
      destruct (fst p =? a)%nat, (snd p =? b)%nat; reflexivity.
Qed.

Lemma filter_fst_combine (a : nat) (u v : list nat) :
  length u = length v ->
  length (filter (fun p => (fst p =? a)%nat) (combine u v))
  = count_occ Nat.eq_dec u a.
Proof.
  revert v. induction u as [| x u IH]; intros [| y v] Hlen;
    try discriminate; [reflexivity |].
  cbn. injection Hlen as Hlen.
  destruct (Nat.eqb_spec x a), (Nat.eq_dec x a); try contradiction;
    cbn; now rewrite IH.
Qed.

Lemma contingency_row (y_ref y_est : list nat) (a : nat) :
  length y_ref = length y_est ->
  Rsum (map (fun b => joint_probability y_ref y_est a b)
            (Structure.unique y_est))
  = marginal_probability y_ref a.
Proof.
  intros Hlen. unfold joint_probability, marginal_probability.
  rewrite (Rsum_ext_in _
             (fun b => / INR (length y_ref)
                       * INR (Structure.count_pair a b (combine y_ref y_est))))
    by (intros; unfold Rdiv; ring).
  rewrite Rsum_scale, Rsum_INR, count_pair_row.
  - rewrite filter_fst_combine by exact Hlen. unfold Rdiv; ring.
  - apply unique_NoDup.
  - intros [x y] Hp. apply unique_in. cbn. eapply in_combine_r, Hp.
Qed.

Lemma ln_2_pos : 0 < ln 2.
Proof. pose proof ln_lt_2. lra. Qed.

Lemma Rsum_opp {A} (f : A -> R) (v : list A) :
  Rsum (map (fun x => - f x) v) = - Rsum (map f v).
Proof.
  unfold Rsum. induction v as [| x v IH]; cbn; [ring | rewrite IH; ring].
Qed.

(** One term of the entropy of a normalised row, weighted by the row sum,
    is one term of the conditional entropy. *)
Lemma xlogx_scaled (J p : R) :
  p <> 0 -> p / ln 2 * Structure.xlogx (J / p) = conditional_term J p.
Proof.
  intros Hp. pose proof ln_2_pos as Hln.
  unfold Structure.xlogx, conditional_term, Structure.log2.
  destruct (Req_dec_T J 0) as [-> | HJ].
  - destruct (Req_dec_T (0 / p) 0) as [_ | H]; [ring |].
    exfalso. apply H. unfold Rdiv. ring.
  - destruct (Req_dec_T (J / p) 0) as [H | _].
    + exfalso. apply HJ. replace J with (J / p * p) by (field; exact Hp).
      rewrite H. ring.
    + field. repeat split; first [exact Hp | lra].
Qed.

Lemma marginal_probability_pos (y_ref : list nat) (a : nat) :
  In a y_ref -> marginal_probability y_ref a <> 0.
Proof.
  intros Hin. unfold marginal_probability.
  assert (Hc : (0 < count_occ Nat.eq_dec y_ref a)%nat)
    by now apply count_occ_In.
  assert (Hn : (0 < length y_ref)%nat)
    by (destruct y_ref; [contradiction | cbn; lia]).
  apply lt_0_INR in Hc, Hn.
  apply Rgt_not_eq. apply Rdiv_lt_0_compat; assumption.
Qed.

(** The orientation of the transposed term: the row sums of the table
    times the entropies of the columns of its transpose is the entropy of
    the estimate given the reference. *)
Lemma pred_given_ref_entropy (y_ref y_est : list nat) :
  length y_ref = length y_est ->
  let contingency := normalised_contingency y_ref y_est in
  Structure.dot (Structure.sum_axis1 contingency)
                (Structure.entropy (transpose contingency) 2)
  = entropy_est_given_ref y_ref y_est.
Proof.
  intros Hlen contingency.
  set (classes := Structure.unique y_ref).
  set (clusters := Structure.unique y_est).
  set (G := fun a =>
         - Rsum (map (fun b =>
                        conditional_term (joint_probability y_ref y_est a b)
                                         (marginal_probability y_ref a))
                     clusters)).
  unfold Structure.sum_axis1, Structure.entropy, transpose, contingency,
    normalised_contingency, Structure.divide_scalar.
  cbn [shape0 shape1 item]. fold classes clusters.
  rewrite dot_map.
  transitivity (Rsum (map (fun i => G (nth i classes 0%nat))
                          (seq 0 (length classes)))).
  2: { rewrite (map_nth_seq G 0%nat classes). unfold G, entropy_est_given_ref, conditional_entropy.
       fold classes clusters. apply Rsum_opp. }
  apply Rsum_ext_in. intros i Hi. apply in_seq in Hi.
  set (a := nth i classes 0%nat).
  assert (Ha : In a y_ref).
  { apply unique_in. apply nth_In. exact (proj2 Hi). }
  assert (Hrow :
    Rsum (map (fun j =>
                 INR (Structure.count_pair a (nth j clusters 0%nat)
                                           (combine y_ref y_est))
                 / INR (length y_ref))
              (seq 0 (length clusters)))
    = marginal_probability y_ref a).
  { rewrite <- (contingency_row y_ref y_est a Hlen). f_equal.
    apply (map_nth_seq (joint_probability y_ref y_est a) 0%nat). }
  rewrite Hrow.
  assert (Hent :
    Rsum (map (fun j =>
                 Structure.xlogx
                   (INR (Structure.count_pair a (nth j clusters 0%nat)
                                              (combine y_ref y_est))
                    / INR (length y_ref) / marginal_probability y_ref a))
              (seq 0 (length clusters)))
    = Rsum (map (fun b =>
                   Structure.xlogx (joint_probability y_ref y_est a b
                                    / marginal_probability y_ref a))
                clusters)).
  { f_equal.
    apply (map_nth_seq
             (fun b => Structure.xlogx (joint_probability y_ref y_est a b
                                        / marginal_probability y_ref a))
             0%nat). }
  rewrite Hent. unfold G.
  rewrite (Rsum_ext_in
             (fun b => conditional_term (joint_probability y_ref y_est a b)
                                        (marginal_probability y_ref a))
             (fun b => marginal_probability y_ref a / ln 2
                       * Structure.xlogx (joint_probability y_ref y_est a b
                                          / marginal_probability y_ref a))).
  - rewrite Rsum_scale. unfold Rdiv. ring.
  - intros b _. symmetry. apply xlogx_scaled.
    now apply marginal_probability_pos.
Qed.

(** The other term: the table of the swapped sequences is the transposed
    table, so the column sums times the column entropies is the entropy of
    the reference given the estimate. *)
Lemma count_pair_swap (a b : nat) (u v : list nat) :
  Structure.count_pair a b (combine u v)
  = Structure.count_pair b a (combine v u).
Proof.
  unfold Structure.count_pair. revert v.
  induction u as [| x u IH]; intros [| y v]; try reflexivity.
  cbn [combine filter fst snd]. rewrite (andb_comm (x =? a)%nat).
  destruct ((y =? b)%nat && (x =? a)%nat); cbn [length]; now rewrite IH.
Qed.

Lemma transposed_reductions (A B : array2 R) (base : R) :
  shape0 A = shape1 B -> shape1 A = shape0 B ->
  (forall i j, item A i j = item B j i) ->
  Structure.sum_axis0 A = Structure.sum_axis1 B
  /\ Structure.entropy A base = Structure.entropy (transpose B) base.
Proof.
  intros H0 H1 Hitem.
  unfold Structure.sum_axis0, Structure.sum_axis1, Structure.entropy, transpose.
  cbn [shape0 shape1 item]. rewrite H0, H1. split.
  - apply map_ext; intros j. f_equal. apply map_ext; intros i. apply Hitem.
  - apply map_ext; intros j.
    replace (map (fun i => item A i j) (seq 0 (shape1 B)))
      with (map (fun i => item B j i) (seq 0 (shape1 B)))
      by (apply map_ext; intros i; symmetry; apply Hitem).
    f_equal. f_equal. f_equal. apply map_ext; intros i. now rewrite Hitem.
Qed.

Lemma true_given_est_entropy (y_ref y_est : list nat) :
  length y_ref = length y_est ->
  let contingency := normalised_contingency y_ref y_est in
  Structure.dot (Structure.sum_axis0 contingency)
                (Structure.entropy contingency 2)
  = entropy_ref_given_est y_ref y_est.
Proof.
  intros Hlen contingency.
  unfold entropy_ref_given_est.
  change (conditional_entropy y_est y_ref)
    with (entropy_est_given_ref y_est y_ref).
  rewrite <- (pred_given_ref_entropy y_est y_ref (eq_sym Hlen)).
  destruct (transposed_reductions contingency
              (normalised_contingency y_est y_ref) 2) as (Hsum & Hent).
  - reflexivity.
  - reflexivity.
  - intros i j. unfold contingency, normalised_contingency,
      Structure.divide_scalar. cbn [item].
    now rewrite count_pair_swap, Hlen.
  - now rewrite Hsum, Hent.
Qed.

Section NceFacts.

Variable intervals_to_samples :
  ndarray -> list label -> R -> list R * list sample_label.
Variable index_labels : list sample_label -> list nat * list sample_label.

Let frame_ids := Structure.frame_ids intervals_to_samples index_labels.
Let nce := Structure.nce intervals_to_samples index_labels.

(** [nce] on a validated input whose two frame counts agree. *)
Lemma nce_returns (ri : ndarray) (rl : list label) (ei : ndarray)
    (el : list label) (frame_size beta : R) :
  validated ri rl ei el ->
  let y_ref := frame_ids ri rl frame_size in
  let y_est := frame_ids ei el frame_size in
  length y_ref = length y_est ->
  let n_ref := length (Structure.unique y_ref) in
  let n_est := length (Structure.unique y_est) in
  let score_under :=
    if (1 <? n_ref)%nat
    then Fin (1 - entropy_ref_given_est y_ref y_est
                  / Structure.log2 (INR n_ref))
    else NaN in
  let score_over :=
    if (1 <? n_est)%nat
    then Fin (1 - entropy_est_given_ref y_ref y_est
                  / Structure.log2 (INR n_est))
    else NaN in
  nce ri rl ei el frame_size beta
  = Ok (score_over, score_under, Util.f_measure score_over score_under beta).
Proof.
  intros Hvalid y_ref y_est Hlen n_ref n_est.
  unfold nce, Structure.nce. rewrite validated_run by exact Hvalid.
  unfold Structure.nce_wrapped. fold frame_ids. fold y_ref y_est.
  unfold Structure.contingency_matrix.
  rewrite Hlen, Nat.eqb_refl; cbn [bind]. rewrite <- Hlen.
  fold (normalised_contingency y_ref y_est).
  rewrite (pred_given_ref_entropy y_ref y_est Hlen).
  rewrite (true_given_est_entropy y_ref y_est Hlen).
  reflexivity.
Qed.

(** Frame sequences of different lengths are refused by the contingency
    table. *)
Lemma nce_raises (ri : ndarray) (rl : list label) (ei : ndarray)
    (el : list label) (frame_size beta : R) :
  validated ri rl ei el ->
  length (frame_ids ri rl frame_size) <> length (frame_ids ei el frame_size) ->
  nce ri rl ei el frame_size beta = Raise LengthError.
Proof.
  intros Hvalid Hlen.
  unfold nce, Structure.nce. rewrite validated_run by exact Hvalid.
  unfold Structure.nce_wrapped. fold frame_ids.
  unfold Structure.contingency_matrix.
  apply Nat.eqb_neq in Hlen. now rewrite Hlen.
Qed.

(** C2. On a validated input whose estimate has more than one cluster, the
    over-clustering score [nce] returns is
    1 - H(estimate | reference) / log2(n_est_clusters), with the base-2
    conditional entropy of the estimated frame labels given the reference
    frame labels: that is what the term built from [contingency.T] is.
    [nce] does return when the two frame counts agree. *)
Theorem nce_over_clustering_score :
  forall (reference_intervals : ndarray) (reference_labels : list label)
         (estimated_intervals : ndarray) (estimated_labels : list label)
         (frame_size beta : R),
    validated reference_intervals reference_labels
              estimated_intervals estimated_labels ->
    let y_ref := frame_ids reference_intervals reference_labels frame_size in
    let y_est := frame_ids estimated_intervals estimated_labels frame_size in
    let n_est_clusters := length (Structure.unique y_est) in
    let outcome :=
      nce reference_intervals reference_labels
          estimated_intervals estimated_labels frame_size beta in
    (1 < n_est_clusters)%nat ->
    (forall S_over S_under S_F,
        outcome = Ok (S_over, S_under, S_F) ->
        S_over = Fin (1 - entropy_est_given_ref y_ref y_est
                          / Structure.log2 (INR n_est_clusters)))
    /\ (length y_ref = length y_est ->
        exists S_over S_under S_F, outcome = Ok (S_over, S_under, S_F)).
Proof.
  intros ri rl ei el frame_size beta Hvalid y_ref y_est n_est outcome Hn.
  apply Nat.ltb_lt in Hn.
  split.
  - intros S_over S_under S_F Hrun. unfold outcome in Hrun.
    destruct (Nat.eq_dec (length y_ref) (length y_est)) as [Hlen | Hlen].
    + pose proof (nce_returns ri rl ei el frame_size beta Hvalid Hlen) as E.
      cbv zeta in E. rewrite E in Hrun. fold y_est in Hrun. fold n_est in Hrun.
      rewrite Hn in Hrun. now injection Hrun as <- _ _.
    + rewrite (nce_raises ri rl ei el frame_size beta Hvalid Hlen) in Hrun.
      discriminate Hrun.
  - intros Hlen. unfold outcome.
    rewrite (nce_returns ri rl ei el frame_size beta Hvalid Hlen).
    eexists. eexists. eexists. reflexivity.
Qed.

(** C3. Of the three scores [nce] returns on a validated input, S_under is
    NaN when the reference has at most one cluster, S_over is NaN when the
    estimate has at most one cluster, and S_F is NaN whenever S_over or
    S_under is.  [nce] does return when the two frame counts agree. *)
Theorem nce_nan_scores :
  forall (reference_intervals : ndarray) (reference_labels : list label)
         (estimated_intervals : ndarray) (estimated_labels : list label)
         (frame_size beta : R),
    validated reference_intervals reference_labels
              estimated_intervals estimated_labels ->
    let y_ref := frame_ids reference_intervals reference_labels frame_size in
    let y_est := frame_ids estimated_intervals estimated_labels frame_size in
    let n_ref_clusters := length (Structure.unique y_ref) in
    let n_est_clusters := length (Structure.unique y_est) in
    let outcome :=
      nce reference_intervals reference_labels
          estimated_intervals estimated_labels frame_size beta in
    (forall S_over S_under S_F,
        outcome = Ok (S_over, S_under, S_F) ->
        ((n_ref_clusters <= 1)%nat -> S_under = NaN)
        /\ ((n_est_clusters <= 1)%nat -> S_over = NaN)
        /\ (S_over = NaN \/ S_under = NaN -> S_F = NaN))
    /\ (length y_ref = length y_est ->
        exists S_over S_under S_F, outcome = Ok (S_over, S_under, S_F)).
Proof.
  intros ri rl ei el frame_size beta Hvalid y_ref y_est n_ref n_est outcome.
  split.
  - intros S_over S_under S_F Hrun. unfold outcome in Hrun.
    destruct (Nat.eq_dec (length y_ref) (length y_est)) as [Hlen | Hlen].
    + pose proof (nce_returns ri rl ei el frame_size beta Hvalid Hlen) as E.
      cbv zeta in E. rewrite E in Hrun.
      fold y_ref y_est in Hrun. fold n_ref n_est in Hrun.
      injection Hrun as <- <- <-.
      split; [| split].
      * intros Hle. apply Nat.ltb_ge in Hle. now rewrite Hle.
      * intros Hle. apply Nat.ltb_ge in Hle. now rewrite Hle.
      * intros [Hnan | Hnan]; rewrite Hnan; [reflexivity |].
        now destruct (if (1 <? n_est)%nat then _ else _).
    + rewrite (nce_raises ri rl ei el frame_size beta Hvalid Hlen) in Hrun.
      discriminate Hrun.
  - intros Hlen. unfold outcome.
    rewrite (nce_returns ri rl ei el frame_size beta Hvalid Hlen).
    eexists. eexists. eexists. reflexivity.
Qed.


End NceFacts.

Lemma validated_x_a_b :
  validated (Rows2 [(0, 2)]) ["x"%string]
            (Rows2 [(0, 1); (1, 2)]) ["a"; "b"]%string.
Proof.
  unfold validated, Structure.validate, Structure.validate_pair,
    Structure.validate_intervals.
  Reval. reflexivity.
Qed.

Lemma nce_over_clustering_score_witness :
  let ri := Rows2 [(0, 2)] in
  let rl := ["x"%string] in
  let ei := Rows2 [(0, 1); (1, 2)] in
  let el := ["a"; "b"]%string in
  let frame_ids :=
    Structure.frame_ids Util.intervals_to_samples Util.index_labels in
  let y_ref := frame_ids ri rl 1 in
  let y_est := frame_ids ei el 1 in
  let outcome :=
    Structure.nce Util.intervals_to_samples Util.index_labels
      ri rl ei el 1 1 in
  validated ri rl ei el
  /\ (1 < length (Structure.unique y_est))%nat
  /\ exists S_under S_F,
       outcome
       = Ok (Fin (1 - entropy_est_given_ref y_ref y_est
                      / Structure.log2 (INR (length (Structure.unique y_est)))),
             S_under, S_F).
Proof.
  intros ri rl ei el frame_ids y_ref y_est outcome.
  assert (Href : y_ref = [0; 0]%nat) by exact frame_ids_x_x.
  assert (Hest : y_est = [0; 1]%nat) by exact frame_ids_a_b.
  assert (Hlen : length y_ref = length y_est) by now rewrite Href, Hest.
  assert (Hn : (1 < length (Structure.unique y_est))%nat)
    by (rewrite Hest; cbn; lia).
  split; [exact validated_x_a_b |]. split; [exact Hn |].
  destruct (nce_over_clustering_score
              Util.intervals_to_samples Util.index_labels
              ri rl ei el 1 1 validated_x_a_b Hn)
    as (Hscore & Hreturns).
  destruct (Hreturns Hlen) as (S_over & S_under & S_F & Hrun).
  exists S_under, S_F. unfold outcome. rewrite Hrun.
  now rewrite (Hscore S_over S_under S_F Hrun).
Defined.

Lemma nce_nan_scores_witness :
  let ri := Rows2 [(0, 2)] in
  let rl := ["x"%string] in
  let ei := Rows2 [(0, 1); (1, 2)] in
  let el := ["a"; "b"]%string in
  let outcome :=
    Structure.nce Util.intervals_to_samples Util.index_labels
      ri rl ei el 1 1 in
  validated ri rl ei el
  /\ exists S_over S_F, outcome = Ok (S_over, NaN, S_F) /\ S_F = NaN.
Proof.
  intros ri rl ei el outcome.
  split; [exact validated_x_a_b |].
  destruct (nce_nan_scores Util.intervals_to_samples Util.index_labels
              ri rl ei el 1 1 validated_x_a_b)
    as (Hscores & Hreturns).
  destruct Hreturns as (S_over & S_under & S_F & Hrun).
  { unfold ri, rl, ei, el. now rewrite frame_ids_x_x, frame_ids_a_b. }
  destruct (Hscores S_over S_under S_F Hrun) as (Hunder & _ & HF).
  assert (E : S_under = NaN).
  { apply Hunder. unfold ri, rl. rewrite frame_ids_x_x. cbn. lia. }
  exists S_over, S_F. unfold outcome. rewrite Hrun, E.
  split; [reflexivity |]. apply HF. now right.
Defined.

(** ** The entropy scores at concrete inputs *)

Lemma log2_half : Structure.log2 (1 / 2) = -1.
Proof.
  unfold Structure.log2. replace (1 / 2) with (/ 2) by lra.
  rewrite ln_Rinv by lra. field. pose proof ln_2_pos; lra.
Qed.

Lemma log2_2 : Structure.log2 (INR 2) = 1.
Proof.
  unfold Structure.log2. replace (INR 2) with 2 by (cbn; lra).
  field. pose proof ln_2_pos; lra.
Qed.

Example conditional_entropy_split :
  conditional_entropy [0; 0]%nat [0; 1]%nat = 1.
Proof.
  unfold conditional_entropy, joint_probability, marginal_probability,
    conditional_term.
  cbn.
  repeat match goal with
         | |- context [Req_dec_T ?x ?y] =>
             destruct (Req_dec_T x y); [exfalso; lra |]
         end.
  replace ((1 / (1 + 1)) / ((1 + 1) / (1 + 1))) with (1 / 2) by field.
  rewrite log2_half. lra.
Qed.

Example nce_x_a_b :
  Structure.nce Util.intervals_to_samples Util.index_labels
    (Rows2 [(0, 2)]) ["x"%string] (Rows2 [(0, 1); (1, 2)]) ["a"; "b"]%string
    1 1
  = Ok (Fin 0, NaN, NaN).
Proof.
  rewrite (nce_returns Util.intervals_to_samples Util.index_labels
             _ _ _ _ 1 1 validated_x_a_b)
    by now rewrite frame_ids_x_x, frame_ids_a_b.
  rewrite frame_ids_x_x, frame_ids_a_b.
  unfold entropy_est_given_ref. rewrite conditional_entropy_split.
  change (length (Structure.unique [0; 1]%nat)) with 2%nat.
  change (length (Structure.unique [0; 0]%nat)) with 1%nat.
  cbn [Nat.ltb Nat.leb]. rewrite log2_2. unfold Util.f_measure.
  replace (1 - 1 / 1) with 0 by lra. reflexivity.
Qed.

Lemma frame_ids_aabb :
  Structure.frame_ids Util.intervals_to_samples Util.index_labels
    (Rows2 [(0, 2); (2, 4)]) ["a"; "b"]%string 1 = [0; 0; 1; 1]%nat.
Proof.
  unfold Structure.frame_ids, Util.intervals_to_samples. cbn [last snd].
  rewrite (Zfloor_eq 4) by (split; lra).
  change (Z.to_nat 4) with 4%nat.
  Reval. reflexivity.
Qed.

Lemma frame_ids_pqrr :
  Structure.frame_ids Util.intervals_to_samples Util.index_labels
    (Rows2 [(0, 1); (1, 2); (2, 4)]) ["p"; "q"; "r"]%string 1
  = [0; 1; 2; 2]%nat.
Proof.
  unfold Structure.frame_ids, Util.intervals_to_samples. cbn [last snd].
  rewrite (Zfloor_eq 4) by (split; lra).
  change (Z.to_nat 4) with 4%nat.
  Reval. reflexivity.
Qed.

Lemma validated_aabb_pqrr :
  validated (Rows2 [(0, 2); (2, 4)]) ["a"; "b"]%string
            (Rows2 [(0, 1); (1, 2); (2, 4)]) ["p"; "q"; "r"]%string.
Proof.
  unfold validated, Structure.validate, Structure.validate_pair,
    Structure.validate_intervals.
  Reval. reflexivity.
Qed.

Ltac decide_zero :=
  repeat match goal with
         | |- context [Req_dec_T ?x ?y] =>
             destruct (Req_dec_T x y); [try (exfalso; lra) | try (exfalso; lra)]
         end.

Example conditional_entropy_aabb_pqrr :
  conditional_entropy [0; 0; 1; 1]%nat [0; 1; 2; 2]%nat = 1 / 2.
Proof.
  unfold conditional_entropy, joint_probability, marginal_probability,
    conditional_term.
  cbn. decide_zero.
  replace (1 / (1 + 1 + 1 + 1) / ((1 + 1) / (1 + 1 + 1 + 1))) with (1 / 2)
    by field.
  replace ((1 + 1) / (1 + 1 + 1 + 1) / ((1 + 1) / (1 + 1 + 1 + 1))) with 1
    by field.
  unfold Structure.log2 at 3. rewrite ln_1.
  rewrite log2_half. lra.
Qed.

Example conditional_entropy_pqrr_aabb :
  conditional_entropy [0; 1; 2; 2]%nat [0; 0; 1; 1]%nat = 0.
Proof.
  unfold conditional_entropy, joint_probability, marginal_probability,
    conditional_term.
  cbn. decide_zero.
  replace (1 / (1 + 1 + 1 + 1) / (1 / (1 + 1 + 1 + 1))) with 1 by field.
  replace ((1 + 1) / (1 + 1 + 1 + 1) / ((1 + 1) / (1 + 1 + 1 + 1))) with 1
    by field.
  unfold Structure.log2. rewrite ln_1. lra.
Qed.

Example nce_aabb_pqrr (beta : R) :
  let S_over := Fin (1 - 1 / 2 / Structure.log2 3) in
  Structure.nce Util.intervals_to_samples Util.index_labels
    (Rows2 [(0, 2); (2, 4)]) ["a"; "b"]%string
    (Rows2 [(0, 1); (1, 2); (2, 4)]) ["p"; "q"; "r"]%string 1 beta
  = Ok (S_over, Fin 1, Util.f_measure S_over (Fin 1) beta).
Proof.
  intros S_over.
  rewrite (nce_returns Util.intervals_to_samples Util.index_labels
             _ _ _ _ 1 beta validated_aabb_pqrr)
    by now rewrite frame_ids_aabb, frame_ids_pqrr.
  rewrite frame_ids_aabb, frame_ids_pqrr.
  unfold entropy_est_given_ref, entropy_ref_given_est.
  rewrite conditional_entropy_aabb_pqrr, conditional_entropy_pqrr_aabb.
  change (length (Structure.unique [0; 1; 2; 2]%nat)) with 3%nat.
  change (length (Structure.unique [0; 0; 1; 1]%nat)) with 2%nat.
  cbn [Nat.ltb Nat.leb]. rewrite log2_2.
  replace (INR 3) with 3 by (cbn; lra).
  replace (1 - 0 / 1) with 1 by lra. reflexivity.
Qed.





(** * Further properties of the boundary metrics *)

(** ** The boundary validator *)

Lemma any_negative_false (rows : list (R * R)) :
  any_negative rows = false
  <-> Forall (fun row => 0 <= fst row /\ 0 <= snd row) rows.
Proof.
  unfold any_negative. induction rows as [| row rows IH]; cbn [existsb].
  - split; [constructor | reflexivity].
  - rewrite orb_false_iff, orb_false_iff, !Rltb_false, IH. split.
    + intros ((H1 & H2) & H). constructor; [lra | exact H].
    + intros H. inversion H; subst. split; [lra | assumption].
Qed.

Lemma check_durations_ok (rows : list (R * R)) :
  Boundary.check_durations rows = Ok tt
  <-> Forall (fun row => fst row < snd row) rows.
Proof.
  induction rows as [| [s e] rows IH]; cbn [Boundary.check_durations].
  - split; [constructor | reflexivity].
  - destruct (Rleb (e - s) 0) eqn:E.
    + apply Rleb_true in E. split; [discriminate |].
      intros H. inversion H; subst. cbn in *. lra.
    + apply Rleb_false in E. rewrite IH. split.
      * intros H. constructor; [cbn; lra | exact H].
      * intros H. now inversion H.
Qed.

Lemma check_durations_first (pre post : list (R * R)) (s e : R) :
  Forall (fun row => fst row < snd row) pre -> e - s <= 0 ->
  Boundary.check_durations (pre ++ (s, e) :: post)
  = Raise (NonPositiveError s e).
Proof.
  intros Hpre He. induction Hpre as [| [s' e'] pre Hrow Hpre IH];
    cbn [app Boundary.check_durations].
  - now rewrite (proj2 (Rleb_true _ _) He).
  - cbn in Hrow. rewrite (proj2 (Rleb_false (e' - s') 0)) by lra. exact IH.
Qed.

(** X1. The boundary validator accepts an n-by-2 array exactly when every
    time is non-negative and every interval has a positive duration.  A
    negative time anywhere is reported before any duration is looked at,
    and otherwise the first interval of non-positive duration is the one
    reported, with its two bounds. *)
Theorem boundary_validate_intervals_spec :
  forall rows : list (R * R),
    (Boundary.validate_intervals (Rows2 rows) = Ok tt
     <-> Forall (fun row => 0 <= fst row /\ 0 <= snd row /\ fst row < snd row)
                rows)
    /\ (any_negative rows = true ->
        Boundary.validate_intervals (Rows2 rows) = Raise NegativeTimeError)
    /\ (forall pre post s e,
           rows = pre ++ (s, e) :: post ->
           any_negative rows = false ->
           Forall (fun row => fst row < snd row) pre ->
           e - s <= 0 ->
           Boundary.validate_intervals (Rows2 rows)
           = Raise (NonPositiveError s e)).
Proof.
  intros rows. unfold Boundary.validate_intervals. split; [| split].
  - destruct (any_negative rows) eqn:E.
    + split; [discriminate |]. intros H.
      assert (Hn : any_negative rows = false).
      { apply any_negative_false. eapply Forall_impl; [| exact H].
        cbn. intros row (H1 & H2 & _). now split. }
      congruence.
    + rewrite check_durations_ok. apply any_negative_false in E.
      rewrite Forall_forall in E. rewrite !Forall_forall. split.
      * intros H row Hrow. destruct (E row Hrow). split; [| split]; auto.
      * intros H row Hrow. now destruct (H row Hrow) as (_ & _ & ?).
  - intros ->. reflexivity.
  - intros pre post s e -> -> Hpre He. now apply check_durations_first.
Qed.

Lemma boundary_validate_intervals_spec_witness :
  Boundary.validate_intervals (Rows2 [(0, 1); (3, 2); (5, 5)])
  = Raise (NonPositiveError 3 2)
  /\ Boundary.validate_intervals (Rows2 [(3, 2); (-1, 5)])
     = Raise NegativeTimeError
  /\ Boundary.validate_intervals (Rows2 [(0, 1); (1, 2)]) = Ok tt.
Proof.
  split; [| split].
  - destruct (boundary_validate_intervals_spec [(0, 1); (3, 2); (5, 5)])
      as (_ & _ & H).
    apply (H [(0, 1)] [(5, 5)] 3 2).
    + reflexivity.
    + Reval. reflexivity.
    + repeat constructor. cbn. lra.
    + lra.
  - destruct (boundary_validate_intervals_spec [(3, 2); (-1, 5)])
      as (_ & H & _).
    apply H. Reval. reflexivity.
  - destruct (boundary_validate_intervals_spec [(0, 1); (1, 2)]) as (H & _).
    apply H. repeat constructor; cbn; lra.
Defined.

(** ** Matchings and the two hit rates *)

Lemma matching_swap (ref est : list R) (window : R) (m : list (nat * nat)) :
  Util.matching ref est window m ->
  Util.matching est ref window (map (fun p => (snd p, fst p)) m).
Proof.
  intros (Hfst & Hsnd & Hin). unfold Util.matching.
  rewrite !map_map. cbn [fst snd].
  split; [exact Hsnd |]. split; [exact Hfst |].
  intros j i Hji. apply in_map_iff in Hji.
  destruct Hji as ((i', j') & Heq & Hm). cbn in Heq.
  injection Heq as <- <-.
  destruct (Hin i' j' Hm) as (Hi & Hj & Hd).
  split; [exact Hj |]. split; [exact Hi |].
  now rewrite Rabs_minus_sym.
Qed.

Lemma matching_length_le_est (ref est : list R) (window : R)
    (m : list (nat * nat)) :
  Util.matching ref est window m -> (length m <= length est)%nat.
Proof.
  intros H. apply matching_swap in H. apply matching_length_le in H.
  now rewrite length_map in H.
Qed.

Lemma maximum_matching_swap_length (ref est : list R) (window : R)
    (m m' : list (nat * nat)) :
  Util.maximum_matching ref est window m ->
  Util.maximum_matching est ref window m' ->
  length m = length m'.
Proof.
  intros (Hm & Hmax) (Hm' & Hmax').
  apply Nat.le_antisymm.
  - specialize (Hmax' _ (matching_swap _ _ _ _ Hm)).
    now rewrite length_map in Hmax'.
  - specialize (Hmax _ (matching_swap _ _ _ _ Hm')).
    now rewrite length_map in Hmax.
Qed.

Lemma ratio_unit_interval (k n : nat) :
  (k <= n)%nat -> (0 < n)%nat -> 0 <= INR k / INR n <= 1.
Proof.
  intros Hk Hn. apply le_INR in Hk. apply lt_0_INR in Hn.
  pose proof (pos_INR k). split.
  - apply Rmult_le_pos; [assumption |]. left. now apply Rinv_0_lt_compat.
  - apply Rmult_le_reg_r with (INR n); [assumption |].
    unfold Rdiv. rewrite Rmult_assoc, Rinv_l by lra. lra.
Qed.

Section BoundaryScores.

Variable intervals_to_boundaries : ndarray -> list R.
Variable match_events : list R -> list R -> R -> list (nat * nat).

Let detection := Boundary.detection intervals_to_boundaries match_events.
Let boundaries := Boundary.boundaries intervals_to_boundaries.

(** X3. When [match_events] pairs each boundary at most once, the
    precision and the recall that [detection] returns on valid intervals
    lie between 0 and 1, and precision times the number of estimated
    boundaries equals recall times the number of reference boundaries. *)
Theorem detection_rates_bounded :
  forall (reference_intervals estimated_intervals : ndarray)
         (window beta : R) (trim : bool),
    Boundary.validate_intervals reference_intervals = Ok tt ->
    Boundary.validate_intervals estimated_intervals = Ok tt ->
    let reference_boundaries := boundaries reference_intervals trim in
    let estimated_boundaries := boundaries estimated_intervals trim in
    Util.matching reference_boundaries estimated_boundaries window
      (match_events reference_boundaries estimated_boundaries window) ->
    exists precision recall f_measure,
      detection reference_intervals estimated_intervals window beta trim
      = Ok (Fin precision, Fin recall, f_measure)
      /\ 0 <= precision <= 1
      /\ 0 <= recall <= 1
      /\ precision * INR (length estimated_boundaries)
         = recall * INR (length reference_boundaries).
Proof.
  intros ri ei window beta trim Hr He rb eb Hm.
  unfold detection, Boundary.detection.
  rewrite validate_ok by assumption.
  rewrite detection_wrapped_eq. cbv zeta. fold boundaries. fold rb eb.
  destruct rb as [| r rb'] eqn:Erb; [| destruct eb as [| e' eb'] eqn:Eeb].
  - cbn [length Nat.eqb orb]. exists 0, 0, (Fin 0).
    split; [reflexivity |]. repeat split; lra.
  - cbn [length Nat.eqb orb]. exists 0, 0, (Fin 0).
    split; [reflexivity |]. repeat split; lra.
  - cbn [length Nat.eqb orb].
    pose proof (matching_length_le _ _ _ _ Hm) as Hler.
    pose proof (matching_length_le_est _ _ _ _ Hm) as Hlee.
    cbn [length] in Hler, Hlee.
    eexists. eexists. eexists. split; [reflexivity |].
    split; [apply ratio_unit_interval; lia |].
    split; [apply ratio_unit_interval; lia |].
    assert (INR (S (length eb')) <> 0) by (apply not_0_INR; lia).
    assert (INR (S (length rb')) <> 0) by (apply not_0_INR; lia).
    field. split; assumption.
Qed.

(** X4. When [match_events] returns a maximum matching for the boundary
    sets in either order, exchanging the reference and the estimated
    intervals exchanges the precision and the recall of [detection]. *)
Theorem detection_swap :
  forall (a b : ndarray) (window beta : R) (trim : bool),
    Boundary.validate_intervals a = Ok tt ->
    Boundary.validate_intervals b = Ok tt ->
    Util.maximum_matching (boundaries a trim) (boundaries b trim) window
      (match_events (boundaries a trim) (boundaries b trim) window) ->
    Util.maximum_matching (boundaries b trim) (boundaries a trim) window
      (match_events (boundaries b trim) (boundaries a trim) window) ->
    exists precision recall F F',
      detection a b window beta trim = Ok (precision, recall, F)
      /\ detection b a window beta trim = Ok (recall, precision, F').
Proof.
  intros a b window beta trim Ha Hb Hab Hba.
  unfold detection, Boundary.detection.
  rewrite !validate_ok by assumption.
  rewrite !detection_wrapped_eq. cbv zeta. fold boundaries.
  rewrite (orb_comm (Nat.eqb (length (boundaries b trim)) 0)
                    (Nat.eqb (length (boundaries a trim)) 0)).
  destruct ((length (boundaries a trim) =? 0)%nat
            || (length (boundaries b trim) =? 0)%nat).
  - exists (Fin 0), (Fin 0), (Fin 0), (Fin 0). split; reflexivity.
  - rewrite (maximum_matching_swap_length _ _ _ _ _ Hba Hab).
    eexists. eexists. eexists. eexists. split; reflexivity.
Qed.

End BoundaryScores.

Lemma boundaries_0_10 :
  Util.intervals_to_boundaries (Rows2 [(0, 10)]) = [0; 10].
Proof. Reval. reflexivity. Qed.

Lemma matching_pairs_0_1 (ref est : list R) :
  ref = [0; 10; 20] \/ ref = [0; 10] ->
  est = [0; 10; 20] \/ est = [0; 10] ->
  Util.matching ref est (1 / 2) [(0, 0); (1, 1)]%nat.
Proof.
  intros Href Hest. repeat split.
  1,2: cbn; repeat constructor; cbn; intuition lia.
  all: cbn in H; destruct H as [H | [H | []]]; injection H as <- <-.
  all: destruct Href as [-> | ->], Hest as [-> | ->]; cbn; try lia; Rsolve.
Qed.

Lemma detection_rates_bounded_witness :
  let a := Rows2 [(0, 10); (10, 20)] in
  let b := Rows2 [(0, 10)] in
  exists precision recall f_measure,
    Boundary.detection Util.intervals_to_boundaries Util.match_events
      a b (1 / 2) 1 false
    = Ok (Fin precision, Fin recall, f_measure)
    /\ 0 <= precision <= 1 /\ 0 <= recall <= 1.
Proof.
  intros a b.
  destruct (detection_rates_bounded
              Util.intervals_to_boundaries Util.match_events
              a b (1 / 2) 1 false)
    as (p & r & f & Hrun & Hp & Hr & _).
  - Reval. reflexivity.
  - Reval. reflexivity.
  - unfold Boundary.boundaries, a, b.
    rewrite boundaries_0_10_20, boundaries_0_10.
    unfold Util.match_events. Reval. apply matching_pairs_0_1; auto.
  - exists p, r, f. auto.
Defined.

Lemma detection_swap_witness :
  let a := Rows2 [(0, 10); (10, 20)] in
  let b := Rows2 [(0, 10)] in
  exists precision recall F F',
    Boundary.detection Util.intervals_to_boundaries Util.match_events
      a b (1 / 2) 1 false = Ok (precision, recall, F)
    /\ Boundary.detection Util.intervals_to_boundaries Util.match_events
         b a (1 / 2) 1 false = Ok (recall, precision, F').
Proof.
  intros a b.
  apply (detection_swap Util.intervals_to_boundaries Util.match_events
           a b (1 / 2) 1 false).
  - Reval. reflexivity.
  - Reval. reflexivity.
  - unfold Boundary.boundaries, a, b.
    rewrite boundaries_0_10_20, boundaries_0_10.
    unfold Util.match_events. Reval.
    split; [apply matching_pairs_0_1; auto |].
    intros m' Hm'. now apply matching_length_le_est in Hm'.
  - unfold Boundary.boundaries, a, b.
    rewrite boundaries_0_10_20, boundaries_0_10.
    unfold Util.match_events. Reval.
    split; [apply matching_pairs_0_1; auto |].
    intros m' Hm'. now apply matching_length_le in Hm'.
Defined.

(** ** Distances to the nearest boundary *)

Lemma fold_min_ge (lo acc : R) (v : list R) :
  lo <= acc -> (forall x, In x v -> lo <= x) -> lo <= fold_left Rmin v acc.
Proof.
  revert acc. induction v as [| y v IH]; intros acc Hacc Hv; cbn; [exact Hacc |].
  apply IH.
  - apply Rmin_glb; [exact Hacc | apply Hv; now left].
  - intros x Hx. apply Hv. now right.
Qed.

Lemma fold_min_le_acc (acc : R) (v : list R) : fold_left Rmin v acc <= acc.
Proof.
  revert acc. induction v as [| y v IH]; intros acc; cbn; [lra |].
  eapply Rle_trans; [apply IH | apply Rmin_l].
Qed.

Lemma fold_min_le_in (acc x : R) (v : list R) :
  In x v -> fold_left Rmin v acc <= x.
Proof.
  revert acc. induction v as [| y v IH]; intros acc; cbn; [contradiction |].
  intros [-> | Hx].
  - eapply Rle_trans; [apply fold_min_le_acc | apply Rmin_r].
  - now apply IH.
Qed.

Lemma amin_ge (lo : R) (v : list R) :
  v <> [] -> (forall x, In x v -> lo <= x) -> lo <= Boundary.amin v.
Proof.
  destruct v as [| y v]; [contradiction |]. intros _ Hv. cbn.
  apply fold_min_ge; [apply Hv; now left |].
  intros x Hx. apply Hv. now right.
Qed.

Lemma amin_le (x : R) (v : list R) : In x v -> Boundary.amin v <= x.
Proof.
  destruct v as [| y v]; [contradiction |]. cbn. intros [-> | Hx].
  - apply fold_min_le_acc.
  - now apply fold_min_le_in.
Qed.

Lemma insert_sorted_in (x y : R) (v : list R) :
  In y (Boundary.insert_sorted x v) <-> y = x \/ In y v.
Proof.
  induction v as [| z v IH]; cbn [Boundary.insert_sorted In].
  - intuition congruence.
  - destruct (Rleb x z); cbn [In]; [intuition congruence |].
    rewrite IH. intuition congruence.
Qed.

Lemma insert_sorted_length (x : R) (v : list R) :
  length (Boundary.insert_sorted x v) = S (length v).
Proof.
  induction v as [| z v IH]; cbn [Boundary.insert_sorted]; [reflexivity |].
  destruct (Rleb x z); cbn [length]; [reflexivity | now rewrite IH].
Qed.

Lemma sort_in (y : R) (v : list R) : In y (Boundary.sort v) <-> In y v.
Proof.
  unfold Boundary.sort. induction v as [| x v IH]; cbn [fold_right In].
  - reflexivity.
  - rewrite insert_sorted_in, IH. intuition congruence.
Qed.

Lemma sort_length (v : list R) : length (Boundary.sort v) = length v.
Proof.
  unfold Boundary.sort. induction v as [| x v IH]; cbn [fold_right length].
  - reflexivity.
  - now rewrite insert_sorted_length, IH.
Qed.

(** The median of a non-empty vector lies between any two bounds of its
    elements. *)
Lemma median_between (lo hi : R) (v : list R) :
  v <> [] -> (forall x, In x v -> lo <= x <= hi) ->
  exists m, Boundary.median v = Fin m /\ lo <= m <= hi.
Proof.
  intros Hne Hv. unfold Boundary.median.
  assert (Hn : (0 < length v)%nat) by (destruct v; [contradiction | cbn; lia]).
  assert (Hnth : forall i, (i < length v)%nat ->
                           lo <= nth i (Boundary.sort v) 0 <= hi).
  { intros i Hi. apply Hv. apply sort_in. apply nth_In.
    now rewrite sort_length. }
  destruct (Nat.eqb_spec (length v) 0) as [E | _]; [lia |].
  assert (Hhalf : (length v / 2 < length v)%nat)
    by (apply Nat.div_lt; lia).
  destruct (Nat.odd (length v)).
  - eexists; split; [reflexivity |]. now apply Hnth.
  - eexists; split; [reflexivity |].
    pose proof (Hnth (length v / 2)%nat Hhalf).
    pose proof (Hnth (length v / 2 - 1)%nat ltac:(lia)).
    lra.
Qed.

Lemma median_ge (lo : R) (v : list R) :
  v <> [] -> (forall x, In x v -> lo <= x) ->
  exists m, Boundary.median v = Fin m /\ lo <= m.
Proof.
  intros Hne Hv. unfold Boundary.median.
  assert (Hn : (0 < length v)%nat) by (destruct v; [contradiction | cbn; lia]).
  assert (Hnth : forall i, (i < length v)%nat -> lo <= nth i (Boundary.sort v) 0).
  { intros i Hi. apply Hv. apply sort_in. apply nth_In.
    now rewrite sort_length. }
  destruct (Nat.eqb_spec (length v) 0) as [E | _]; [lia |].
  assert (Hhalf : (length v / 2 < length v)%nat)
    by (apply Nat.div_lt; lia).
  destruct (Nat.odd (length v)).
  - eexists; split; [reflexivity |]. now apply Hnth.
  - eexists; split; [reflexivity |].
    pose proof (Hnth (length v / 2)%nat Hhalf).
    pose proof (Hnth (length v / 2 - 1)%nat ltac:(lia)).
    lra.
Qed.

Lemma min_axis1_length (a b : list R) :
  length (Boundary.min_axis1 (Boundary.abs_subtract_outer a b)) = length a.
Proof. unfold Boundary.min_axis1. cbn. now rewrite length_map, length_seq. Qed.

Lemma min_axis1_nonempty (a b : list R) :
  a <> [] -> Boundary.min_axis1 (Boundary.abs_subtract_outer a b) <> [].
Proof.
  intros Ha E. apply (f_equal (@length R)) in E.
  rewrite min_axis1_length in E. destruct a; [contradiction | discriminate].
Qed.

(** Every distance to the nearest boundary is at least 0. *)
Lemma min_axis1_nonnegative (a b : list R) (x : R) :
  b <> [] ->
  In x (Boundary.min_axis1 (Boundary.abs_subtract_outer a b)) -> 0 <= x.
Proof.
  intros Hb Hx. unfold Boundary.min_axis1 in Hx.
  cbn [Boundary.abs_subtract_outer shape0 shape1 item] in Hx.
  apply in_map_iff in Hx. destruct Hx as (i & <- & Hi).
  apply amin_ge.
  - destruct b; [contradiction | discriminate].
  - intros d Hd. apply in_map_iff in Hd. destruct Hd as (j & <- & _).
    apply Rabs_pos.
Qed.

(** Against itself, every boundary has a boundary at distance 0. *)
Lemma min_axis1_self (a : list R) (x : R) :
  In x (Boundary.min_axis1 (Boundary.abs_subtract_outer a a)) -> x = 0.
Proof.
  intros Hx.
  assert (Ha : a <> []).
  { intros ->. exact Hx. }
  pose proof (min_axis1_nonnegative a a x Ha Hx) as Hlo.
  unfold Boundary.min_axis1 in Hx.
  cbn [Boundary.abs_subtract_outer shape0 shape1 item] in Hx.
  apply in_map_iff in Hx. destruct Hx as (i & <- & Hi).
  apply Rle_antisym; [| exact Hlo].
  apply amin_le. apply in_map_iff. exists i. split; [| exact Hi].
  replace (nth i a 0 - nth i a 0) with 0 by lra. apply Rabs_R0.
Qed.

Section DeviationFacts.

Variable intervals_to_boundaries : ndarray -> list R.

Let deviation := Boundary.deviation intervals_to_boundaries.
Let boundaries := Boundary.boundaries intervals_to_boundaries.

(** X5. Neither value [deviation] returns on valid intervals is a
    negative number: each is the nan of the empty case or not below 0. *)
Theorem deviation_nonnegative :
  forall (reference_intervals estimated_intervals : ndarray) (trim : bool)
         (reference_to_estimated estimated_to_reference : float),
    Boundary.validate_intervals reference_intervals = Ok tt ->
    Boundary.validate_intervals estimated_intervals = Ok tt ->
    deviation reference_intervals estimated_intervals trim
    = Ok (reference_to_estimated, estimated_to_reference) ->
    (forall d, reference_to_estimated = Fin d -> 0 <= d)
    /\ (forall d, estimated_to_reference = Fin d -> 0 <= d).
Proof.
  intros ri ei trim r2e e2r Hr He Hrun.
  unfold deviation, Boundary.deviation in Hrun.
  rewrite validate_ok in Hrun by assumption.
  rewrite deviation_wrapped_eq in Hrun. cbv zeta in Hrun.
  fold boundaries in Hrun.
  destruct (boundaries ri trim) as [| r rb] eqn:Erb;
    [| destruct (boundaries ei trim) as [| e eb] eqn:Eeb].
  - cbn [length Nat.eqb orb] in Hrun. injection Hrun as <- <-.
    split; intros d H; discriminate H.
  - cbn [length Nat.eqb orb] in Hrun. injection Hrun as <- <-.
    split; intros d H; discriminate H.
  - cbn [length Nat.eqb orb] in Hrun. rewrite min_axis0_swap in Hrun.
    destruct (median_ge 0 (Boundary.min_axis1
                             (Boundary.abs_subtract_outer (r :: rb) (e :: eb))))
      as (x & Hx & Hx0).
    { apply min_axis1_nonempty. discriminate. }
    { intros d. apply min_axis1_nonnegative. discriminate. }
    destruct (median_ge 0 (Boundary.min_axis1
                             (Boundary.abs_subtract_outer (e :: eb) (r :: rb))))
      as (y & Hy & Hy0).
    { apply min_axis1_nonempty. discriminate. }
    { intros d. apply min_axis1_nonnegative. discriminate. }
    rewrite Hx, Hy in Hrun. injection Hrun as <- <-.
    split; intros d H; injection H as <-; assumption.
Qed.

(** X6. Valid intervals with a non-empty boundary set deviate from
    themselves by exactly (0.0, 0.0). *)
Theorem deviation_self :
  forall (intervals : ndarray) (trim : bool),
    Boundary.validate_intervals intervals = Ok tt ->
    boundaries intervals trim <> [] ->
    deviation intervals intervals trim = Ok (Fin 0, Fin 0).
Proof.
  intros intervals trim Hvalid Hb.
  unfold deviation, Boundary.deviation.
  rewrite validate_ok by assumption.
  rewrite deviation_wrapped_eq. cbv zeta. fold boundaries.
  rewrite guard_false by assumption.
  rewrite min_axis0_swap.
  destruct (median_between 0 0
              (Boundary.min_axis1
                 (Boundary.abs_subtract_outer
                    (boundaries intervals trim) (boundaries intervals trim))))
    as (m & Hm & Hlo & Hhi).
  { now apply min_axis1_nonempty. }
  { intros d Hd. apply min_axis1_self in Hd. lra. }
  rewrite Hm. replace m with 0 by lra. reflexivity.
Qed.

End DeviationFacts.

Lemma deviation_nonnegative_witness :
  let a := Rows2 [(0, 10); (10, 20)] in
  let b := Rows2 [(0, 4); (4, 12); (12, 20)] in
  Boundary.validate_intervals a = Ok tt
  /\ Boundary.validate_intervals b = Ok tt
  /\ Boundary.deviation Util.intervals_to_boundaries a b false
     = Ok (Fin 0, Fin 1)
  /\ 0 <= 0 /\ 0 <= 1.
Proof.
  intros a b.
  assert (Ha : Boundary.validate_intervals a = Ok tt) by (Reval; reflexivity).
  assert (Hb : Boundary.validate_intervals b = Ok tt) by (Reval; reflexivity).
  destruct (deviation_nonnegative Util.intervals_to_boundaries
              a b false (Fin 0) (Fin 1) Ha Hb deviation_example)
    as (H0 & H1).
  split; [exact Ha |]. split; [exact Hb |].
  split; [exact deviation_example |].
  split; [now apply H0 | now apply H1].
Defined.

Lemma deviation_self_witness :
  Boundary.deviation Util.intervals_to_boundaries
    (Rows2 [(0, 10); (10, 20)]) (Rows2 [(0, 10); (10, 20)]) true
  = Ok (Fin 0, Fin 0).
Proof.
  apply (deviation_self Util.intervals_to_boundaries).
  - Reval. reflexivity.
  - unfold Boundary.boundaries. rewrite boundaries_0_10_20. discriminate.
Defined.

(** * Further properties of the structure metrics *)

(** ** The end-time check *)

(** X7. The end-time check of the structure validator depends on the
    order of its arguments: the tolerance is relative to the estimated end
    time.  Two sequences that each pass their own checks, with end times
    whose distance is within the tolerance around the second but not
    around the first, are handed to the metric in one order and refused
    with 'End times do not match' in the other. *)
Theorem end_check_order_sensitive :
  forall (Args B : Type)
         (metric : ndarray -> list label -> ndarray -> list label -> Args
                   -> result B)
         (a : ndarray) (a_labels : list label)
         (b : ndarray) (b_labels : list label) (args : Args)
         (a_end b_end : R),
    Structure.validate_pair a a_labels = Ok tt ->
    Structure.validate_pair b b_labels = Ok tt ->
    Structure.item_m1_1 a = Ok a_end ->
    Structure.item_m1_1 b = Ok b_end ->
    Rabs (a_end - b_end) <= atol + rtol * Rabs b_end ->
    atol + rtol * Rabs a_end < Rabs (a_end - b_end) ->
    Structure.validate metric a a_labels b b_labels args
    = metric a a_labels b b_labels args
    /\ Structure.validate metric b b_labels a a_labels args = Raise EndError.
Proof.
  intros Args B metric a al b bl args a_end b_end Ha Hb Hae Hbe Hclose Hfar.
  unfold Structure.validate. rewrite Ha, Hb, Hae, Hbe. cbn [bind].
  unfold allclose.
  rewrite (proj2 (Rleb_true _ _) Hclose).
  rewrite (proj2 (Rleb_false (Rabs (b_end - a_end)) _)).
  - split; reflexivity.
  - rewrite Rabs_minus_sym. lra.
Qed.

Lemma end_check_order_sensitive_witness :
  let a := Rows2 [(0, 100000)] in
  let b := Rows2 [(0, 100001000005 / 1000000)] in
  let pairwise_wrapped :=
    Structure.pairwise_wrapped Util.intervals_to_samples Util.index_labels in
  Structure.validate pairwise_wrapped a ["a"%string] b ["b"%string] (1, 1)
  = pairwise_wrapped a ["a"%string] b ["b"%string] (1, 1)
  /\ Structure.validate pairwise_wrapped b ["b"%string] a ["a"%string] (1, 1)
     = Raise EndError.
Proof.
  intros a b pairwise_wrapped.
  apply (end_check_order_sensitive _ _ pairwise_wrapped a ["a"%string]
           b ["b"%string] (1, 1) 100000 (100001000005 / 1000000)).
  - apply (proj2 (validate_pair_ok _ _ _)). Reval. auto.
  - apply (proj2 (validate_pair_ok _ _ _)). Reval. auto.
  - reflexivity.
  - reflexivity.
  - Rsolve.
  - Rsolve.
Defined.

(** ** Counting pairs of frames *)

Lemma nat_sum_le {A} (f g : A -> nat) (v : list A) :
  (forall x, In x v -> (f x <= g x)%nat) ->
  (nat_sum (map f v) <= nat_sum (map g v))%nat.
Proof.
  unfold nat_sum. induction v as [| x v IH]; intros H; cbn; [lia |].
  pose proof (H x (or_introl eq_refl)).
  assert (forall y, In y v -> (f y <= g y)%nat) by (intros; apply H; now right).
  specialize (IH H1). lia.
Qed.

Lemma asum_le (X Y : array2 bool) :
  shape0 X = shape0 Y -> shape1 X = shape1 Y ->
  (forall i j, (i < shape0 X)%nat -> (j < shape1 X)%nat ->
               item X i j = true -> item Y i j = true) ->
  (Structure.asum X <= Structure.asum Y)%nat.
Proof.
  intros H0 H1 H. unfold Structure.asum. rewrite <- H0, <- H1.
  apply nat_sum_le; intros i Hi. apply in_seq in Hi.
  apply nat_sum_le; intros j Hj. apply in_seq in Hj.
  destruct (item X i j) eqn:E; [| lia].
  rewrite (H i j) by (lia || assumption). lia.
Qed.

Lemma broadcast_dim_comm (a b : nat) :
  Structure.broadcast_dim a b = Structure.broadcast_dim b a.
Proof.
  unfold Structure.broadcast_dim.
  destruct (Nat.eqb_spec a b), (Nat.eqb_spec b a), (Nat.eqb_spec a 1),
    (Nat.eqb_spec b 1); subst; try reflexivity; try contradiction;
    try congruence.
Qed.

(** [A & B] and [B & A] raise together or hold as many true elements. *)
Lemma logical_and_comm (A B : array2 bool) :
  match Structure.logical_and A B, Structure.logical_and B A with
  | Ok X, Ok Y => Structure.asum X = Structure.asum Y
  | Raise e, Raise e' => e = BroadcastError /\ e' = BroadcastError
  | _, _ => False
  end.
Proof.
  unfold Structure.logical_and.
  rewrite (broadcast_dim_comm (shape0 B)), (broadcast_dim_comm (shape1 B)).
  destruct (Structure.broadcast_dim (shape0 A) (shape0 B)); [| now split].
  destruct (Structure.broadcast_dim (shape1 A) (shape1 B)); [| now split].
  apply asum_ext; cbn [shape0 shape1 item]; try reflexivity.
  intros i j _ _. apply andb_comm.
Qed.

(** A single true element is broadcast against the whole other array. *)
Lemma logical_and_single (A B : array2 bool) :
  shape0 A = 1%nat -> shape1 A = 1%nat -> item A 0%nat 0%nat = true ->
  exists X, Structure.logical_and A B = Ok X
            /\ Structure.asum X = Structure.asum B.
Proof.
  intros H0 H1 HA. unfold Structure.logical_and, Structure.broadcast_dim.
  rewrite H0, H1.
  change (1 =? 1)%nat with true. cbv iota.
  assert (Hdim : forall n, exists k,
             (if (1 =? n)%nat then Some 1%nat else Some n) = Some k /\ k = n).
  { intros n. destruct (Nat.eqb_spec 1 n) as [<- | _]; eexists; split;
      reflexivity. }
  destruct (Hdim (shape0 B)) as (k0 & -> & ->).
  destruct (Hdim (shape1 B)) as (k1 & -> & ->).
  eexists. split; [reflexivity |].
  apply asum_ext; cbn [shape0 shape1 item]; try reflexivity.
  intros i j Hi Hj. rewrite HA. cbn [andb].
  destruct (Nat.eqb_spec (shape0 B) 1) as [E0 | _],
           (Nat.eqb_spec (shape1 B) 1) as [E1 | _];
    repeat match goal with
           | H : (?k < shape0 B)%nat, E : shape0 B = 1%nat |- _ =>
               assert (k = 0%nat) by lia; clear H; subst k
           | H : (?k < shape1 B)%nat, E : shape1 B = 1%nat |- _ =>
               assert (k = 0%nat) by lia; clear H; subst k
           end; reflexivity.
Qed.

Section PairwiseMore.

Variable intervals_to_samples :
  ndarray -> list label -> R -> list R * list sample_label.
Variable index_labels : list sample_label -> list nat * list sample_label.

Let frame_ids := Structure.frame_ids intervals_to_samples index_labels.
Let pairwise := Structure.pairwise intervals_to_samples index_labels.

Lemma pairwise_run (ri : ndarray) (rl : list label) (ei : ndarray)
    (el : list label) (frame_size beta : R) :
  validated ri rl ei el ->
  let agree_ref :=
    Structure.triu (Structure.equal_outer (frame_ids ri rl frame_size)
                                          (frame_ids ri rl frame_size)) in
  let agree_est :=
    Structure.triu (Structure.equal_outer (frame_ids ei el frame_size)
                                          (frame_ids ei el frame_size)) in
  pairwise ri rl ei el frame_size beta
  = (both <- Structure.logical_and agree_ref agree_est ;;
     let precision :=
       Structure.true_divide (INR (Structure.asum both))
                             (Structure.asum agree_est) in
     let recall :=
       Structure.true_divide (INR (Structure.asum both))
                             (Structure.asum agree_ref) in
     Ok (precision, recall, Util.f_measure precision recall beta)).
Proof.
  intros Hvalid agree_ref agree_est.
  unfold pairwise, Structure.pairwise. now rewrite validated_run.
Qed.

(** X8. On a validated input whose two frame counts agree, the precision
    and the recall of [pairwise] are above 0 and at most 1 when there is a
    frame, and both are NaN when the sampling yields no frame. *)
Theorem pairwise_rates_bounded :
  forall (reference_intervals : ndarray) (reference_labels : list label)
         (estimated_intervals : ndarray) (estimated_labels : list label)
         (frame_size beta : R),
    validated reference_intervals reference_labels
              estimated_intervals estimated_labels ->
    let y_ref := frame_ids reference_intervals reference_labels frame_size in
    let y_est := frame_ids estimated_intervals estimated_labels frame_size in
    let outcome :=
      pairwise reference_intervals reference_labels
               estimated_intervals estimated_labels frame_size beta in
    length y_ref = length y_est ->
    (y_ref = [] -> exists F, outcome = Ok (NaN, NaN, F))
    /\ (y_ref <> [] ->
        exists precision recall F,
          outcome = Ok (Fin precision, Fin recall, F)
          /\ 0 < precision <= 1 /\ 0 < recall <= 1).
Proof.
  intros ri rl ei el frame_size beta Hvalid y_ref y_est outcome Hlen.
  unfold outcome. rewrite pairwise_run by exact Hvalid. cbv zeta.
  fold y_ref y_est.
  set (agree_ref := Structure.triu (Structure.equal_outer y_ref y_ref)).
  set (agree_est := Structure.triu (Structure.equal_outer y_est y_est)).
  destruct (logical_and_same_shape agree_ref agree_est)
    as (X & HX & HX0 & HX1 & Hitem); [exact Hlen | exact Hlen |].
  rewrite HX. cbn [bind].
  assert (Hle_ref : (Structure.asum X <= Structure.asum agree_ref)%nat).
  { apply asum_le; auto. intros i j Hi Hj. rewrite Hitem by lia.
    intros H. now apply andb_true_iff in H. }
  assert (Hle_est : (Structure.asum X <= Structure.asum agree_est)%nat).
  { apply asum_le; cbn [agree_ref agree_est Structure.triu Structure.equal_outer
                        shape0 shape1] in *; try congruence.
    intros i j Hi Hj. rewrite Hitem by lia.
    intros H. now apply andb_true_iff in H. }
  destruct (asum_logical_and_agree y_ref y_est Hlen) as (X' & HX' & Hsum).
  fold agree_ref agree_est in HX'. rewrite HX in HX'. injection HX' as <-.
  split.
  - intros Hempty. eexists.
    assert (E : Structure.asum agree_ref = 0%nat /\ Structure.asum agree_est = 0%nat).
    { unfold agree_ref, agree_est. rewrite !asum_agree.
      assert (Hest : y_est = [])
        by (rewrite Hempty in Hlen; now destruct y_est).
      rewrite Hempty, Hest. split; reflexivity. }
    destruct E as (-> & ->). reflexivity.
  - intros Hne.
    assert (Hn : (0 < length y_ref)%nat)
      by (destruct y_ref; [contradiction | cbn; lia]).
    assert (Hpos : (0 < Structure.asum X)%nat) by lia.
    rewrite !true_divide_pos by lia.
    eexists. eexists. eexists. split; [reflexivity |].
    assert (Hrange : forall n, (Structure.asum X <= n)%nat ->
                               0 < INR (Structure.asum X) / INR n <= 1).
    { intros n Hn'. split.
      - apply Rdiv_lt_0_compat; apply lt_0_INR; lia.
      - apply ratio_unit_interval; lia. }
    split; apply Hrange; assumption.
Qed.

(** X9. On a validated input whose two frame counts differ, neither being
    1, [pairwise] raises the broadcasting error of [agree_ref & agree_est]. *)
Theorem pairwise_frame_count_mismatch :
  forall (reference_intervals : ndarray) (reference_labels : list label)
         (estimated_intervals : ndarray) (estimated_labels : list label)
         (frame_size beta : R),
    validated reference_intervals reference_labels
              estimated_intervals estimated_labels ->
    let y_ref := frame_ids reference_intervals reference_labels frame_size in
    let y_est := frame_ids estimated_intervals estimated_labels frame_size in
    length y_ref <> length y_est ->
    length y_ref <> 1%nat -> length y_est <> 1%nat ->
    pairwise reference_intervals reference_labels
             estimated_intervals estimated_labels frame_size beta
    = Raise BroadcastError.
Proof.
  intros ri rl ei el frame_size beta Hvalid y_ref y_est Hne Hr He.
  rewrite pairwise_run by exact Hvalid. cbv zeta. fold y_ref y_est.
  unfold Structure.logical_and, Structure.broadcast_dim.
  cbn [Structure.triu Structure.equal_outer shape0 shape1].
  apply Nat.eqb_neq in Hne, Hr, He. now rewrite Hne, Hr, He.
Qed.

(** X10. On a validated input whose reference yields exactly one frame and
    whose estimate yields at least one, the single reference element is
    broadcast against the whole estimate matrix: [pairwise] returns
    precision 1 and a recall equal to [agree_est.sum()], which is at least
    the number of estimated frames. *)
Theorem pairwise_single_reference_frame :
  forall (reference_intervals : ndarray) (reference_labels : list label)
         (estimated_intervals : ndarray) (estimated_labels : list label)
         (frame_size beta : R),
    validated reference_intervals reference_labels
              estimated_intervals estimated_labels ->
    let y_ref := frame_ids reference_intervals reference_labels frame_size in
    let y_est := frame_ids estimated_intervals estimated_labels frame_size in
    let agree_est := Structure.triu (Structure.equal_outer y_est y_est) in
    length y_ref = 1%nat -> y_est <> [] ->
    exists F,
      pairwise reference_intervals reference_labels
               estimated_intervals estimated_labels frame_size beta
      = Ok (Fin 1, Fin (INR (Structure.asum agree_est)), F)
      /\ INR (length y_est) <= INR (Structure.asum agree_est).
Proof.
  intros ri rl ei el frame_size beta Hvalid y_ref y_est agree_est Hone Hne.
  rewrite pairwise_run by exact Hvalid. cbv zeta. fold y_ref y_est.
  fold agree_est.
  set (agree_ref := Structure.triu (Structure.equal_outer y_ref y_ref)).
  assert (Hn : (0 < length y_est)%nat)
    by (destruct y_est; [contradiction | cbn; lia]).
  assert (Hge : (length y_est <= Structure.asum agree_est)%nat)
    by (unfold agree_est; rewrite asum_agree; lia).
  assert (Hr : Structure.asum agree_ref = 1%nat).
  { unfold agree_ref. destruct y_ref as [| x [| ? ?]]; try discriminate Hone.
    cbn. now rewrite Nat.eqb_refl. }
  destruct (logical_and_single agree_ref agree_est)
    as (X & HX' & HX); [exact Hone | exact Hone | |].
  { unfold agree_ref. cbn [Structure.triu Structure.equal_outer item].
    now rewrite Nat.ltb_irrefl, Nat.eqb_refl. }
  rewrite HX'. cbn [bind]. rewrite HX, Hr.
  rewrite true_divide_pos by lia. cbn [Structure.true_divide].
  eexists. split; [| now apply le_INR].
  assert (Hnz : INR (Structure.asum agree_est) <> 0)
    by (apply not_0_INR; lia).
  replace (INR (Structure.asum agree_est) / INR (Structure.asum agree_est))
    with 1 by (field; exact Hnz).
  replace (INR (Structure.asum agree_est) / INR 1)
    with (INR (Structure.asum agree_est)) by (cbn; field).
  reflexivity.
Qed.

(** X11. On inputs validated in both orders, exchanging reference and
    estimate exchanges the precision and the recall of [pairwise]; a
    broadcasting error is raised in both orders or in neither. *)
Theorem pairwise_swap :
  forall (a : ndarray) (a_labels : list label)
         (b : ndarray) (b_labels : list label) (frame_size beta : R),
    validated a a_labels b b_labels ->
    validated b b_labels a a_labels ->
    match pairwise a a_labels b b_labels frame_size beta,
          pairwise b b_labels a a_labels frame_size beta with
    | Ok (precision, recall, _), Ok (precision', recall', _) =>
        precision' = recall /\ recall' = precision
    | Raise e, Raise e' => e = BroadcastError /\ e' = BroadcastError
    | _, _ => False
    end.
Proof.
  intros a al b bl frame_size beta Hab Hba.
  rewrite !pairwise_run by assumption. cbv zeta.
  set (agree_a := Structure.triu (Structure.equal_outer _ _)).
  set (agree_b := Structure.triu (Structure.equal_outer _ _)).
  pose proof (logical_and_comm agree_a agree_b) as H.
  destruct (Structure.logical_and agree_a agree_b) as [X | e],
           (Structure.logical_and agree_b agree_a) as [Y | e'];
    cbn [bind]; try contradiction; [| exact H].
  rewrite H. split; reflexivity.
Qed.

End PairwiseMore.

Lemma pairwise_rates_bounded_witness :
  let ri := Rows2 [(0, 1); (1, 2)] in
  let rl := ["a"; "b"]%string in
  let ei := Rows2 [(0, 2)] in
  let el := ["x"%string] in
  validated ri rl ei el
  /\ exists precision recall F,
       Structure.pairwise Util.intervals_to_samples Util.index_labels
         ri rl ei el 1 1
       = Ok (Fin precision, Fin recall, F)
       /\ 0 < precision <= 1 /\ 0 < recall <= 1.
Proof.
  intros ri rl ei el. split; [exact validated_a_b_x |].
  destruct (pairwise_rates_bounded Util.intervals_to_samples Util.index_labels
              ri rl ei el 1 1 validated_a_b_x) as (_ & H).
  - unfold ri, rl, ei, el. now rewrite frame_ids_a_b, frame_ids_x_x.
  - apply H. unfold ri, rl. rewrite frame_ids_a_b. discriminate.
Defined.

(** End times within the tolerance of each other that are sampled to
    different numbers of frames. *)
Lemma frame_ids_short_2 :
  Structure.frame_ids Util.intervals_to_samples Util.index_labels
    (Rows2 [(0, 29999999999 / 10000000000)]) ["a"%string] 1 = [0; 0]%nat.
Proof.
  unfold Structure.frame_ids, Util.intervals_to_samples. cbn [last snd].
  rewrite (Zfloor_eq 2) by (split; lra).
  change (Z.to_nat 2) with 2%nat.
  Reval. reflexivity.
Qed.

Lemma frame_ids_x_3 :
  Structure.frame_ids Util.intervals_to_samples Util.index_labels
    (Rows2 [(0, 3)]) ["x"%string] 1 = [0; 0; 0]%nat.
Proof.
  unfold Structure.frame_ids, Util.intervals_to_samples. cbn [last snd].
  rewrite (Zfloor_eq 3) by (split; lra).
  change (Z.to_nat 3) with 3%nat.
  Reval. reflexivity.
Qed.

Lemma validated_short_2_x_3 :
  validated (Rows2 [(0, 29999999999 / 10000000000)]) ["a"%string]
            (Rows2 [(0, 3)]) ["x"%string].
Proof.
  unfold validated, Structure.validate, Structure.validate_pair,
    Structure.validate_intervals.
  Reval. reflexivity.
Qed.

Lemma pairwise_frame_count_mismatch_witness :
  let ri := Rows2 [(0, 29999999999 / 10000000000)] in
  let ei := Rows2 [(0, 3)] in
  validated ri ["a"%string] ei ["x"%string]
  /\ Structure.pairwise Util.intervals_to_samples Util.index_labels
       ri ["a"%string] ei ["x"%string] 1 1
     = Raise BroadcastError.
Proof.
  intros ri ei. split; [exact validated_short_2_x_3 |].
  apply (pairwise_frame_count_mismatch
           Util.intervals_to_samples Util.index_labels
           ri ["a"%string] ei ["x"%string] 1 1 validated_short_2_x_3);
    unfold ri, ei; rewrite ?frame_ids_short_2, ?frame_ids_x_3; cbn; lia.
Defined.

Lemma frame_ids_short_1 :
  Structure.frame_ids Util.intervals_to_samples Util.index_labels
    (Rows2 [(0, 19999999999 / 10000000000)]) ["a"%string] 1 = [0]%nat.
Proof.
  unfold Structure.frame_ids, Util.intervals_to_samples. cbn [last snd].
  rewrite (Zfloor_eq 1) by (split; lra).
  change (Z.to_nat 1) with 1%nat.
  Reval. reflexivity.
Qed.

Lemma validated_short_1_x_2 :
  validated (Rows2 [(0, 19999999999 / 10000000000)]) ["a"%string]
            (Rows2 [(0, 2)]) ["x"%string].
Proof.
  unfold validated, Structure.validate, Structure.validate_pair,
    Structure.validate_intervals.
  Reval. reflexivity.
Qed.

Lemma pairwise_single_reference_frame_witness :
  let ri := Rows2 [(0, 19999999999 / 10000000000)] in
  let ei := Rows2 [(0, 2)] in
  validated ri ["a"%string] ei ["x"%string]
  /\ exists F,
       Structure.pairwise Util.intervals_to_samples Util.index_labels
         ri ["a"%string] ei ["x"%string] 1 1
       = Ok (Fin 1, Fin 3, F).
Proof.
  intros ri ei. split; [exact validated_short_1_x_2 |].
  destruct (pairwise_single_reference_frame
              Util.intervals_to_samples Util.index_labels
              ri ["a"%string] ei ["x"%string] 1 1 validated_short_1_x_2)
    as (F & Hrun & _).
  - unfold ri. now rewrite frame_ids_short_1.
  - unfold ei. rewrite frame_ids_x_x. discriminate.
  - exists F. rewrite Hrun. unfold ei. rewrite frame_ids_x_x.
    replace (INR (Structure.asum
                    (Structure.triu (Structure.equal_outer [0; 0] [0; 0]))%nat))
      with 3 by (cbn; lra).
    reflexivity.
Defined.

Lemma pairwise_swap_witness :
  let a := Rows2 [(0, 1); (1, 2)] in
  let a_labels := ["a"; "b"]%string in
  let b := Rows2 [(0, 2)] in
  let b_labels := ["x"%string] in
  let pairwise :=
    Structure.pairwise Util.intervals_to_samples Util.index_labels in
  validated a a_labels b b_labels /\ validated b b_labels a a_labels
  /\ exists F, pairwise b b_labels a a_labels 1 1 = Ok (Fin 1, Fin (2 / 3), F).
Proof.
  intros a a_labels b b_labels pairwise.
  split; [exact validated_a_b_x |]. split; [exact validated_x_a_b |].
  pose proof (pairwise_swap Util.intervals_to_samples Util.index_labels
                a a_labels b b_labels 1 1 validated_a_b_x validated_x_a_b)
    as H.
  unfold a, a_labels, b, b_labels in H. rewrite pairwise_a_b_x in H.
  unfold pairwise, a, a_labels, b, b_labels.
  destruct (Structure.pairwise _ _ (Rows2 [(0, 2)]) _ _ _ _ _)
    as [[[P Rc] F] | e]; [| contradiction].
  destruct H as (-> & ->). exists F. reflexivity.
Defined.

(** ** Conditional entropies *)

Lemma Rsum_zero {A} (f : A -> R) (v : list A) :
  (forall x, In x v -> f x = 0) -> Rsum (map f v) = 0.
Proof.
  intros H. rewrite (Rsum_ext_in f (fun _ => 0)) by exact H. clear H.
  unfold Rsum. induction v as [| x v IH]; cbn; [reflexivity | rewrite IH; lra].
Qed.

Lemma Rsum_le {A} (f g : A -> R) (v : list A) :
  (forall x, In x v -> f x <= g x) -> Rsum (map f v) <= Rsum (map g v).
Proof.
  unfold Rsum. induction v as [| x v IH]; intros H; cbn; [lra |].
  pose proof (H x (or_introl eq_refl)).
  assert (Hv : forall y, In y v -> f y <= g y) by (intros; apply H; now right).
  specialize (IH Hv). lra.
Qed.

Lemma Rsum_plus {A} (f g : A -> R) (v : list A) :
  Rsum (map (fun x => f x + g x) v) = Rsum (map f v) + Rsum (map g v).
Proof.
  unfold Rsum. induction v as [| x v IH]; cbn; [ring | rewrite IH; ring].
Qed.

Lemma Rsum_const {A} (c : R) (v : list A) :
  Rsum (map (fun _ => c) v) = INR (length v) * c.
Proof.
  unfold Rsum. induction v as [| x v IH]; [cbn; ring |].
  cbn [map fold_right]. rewrite IH.
  change (length (x :: v)) with (S (length v)). rewrite S_INR. ring.
Qed.

Lemma count_pair_self (a b : nat) (y : list nat) :
  Structure.count_pair a b (combine y y)
  = if (a =? b)%nat then count_occ Nat.eq_dec y a else 0%nat.
Proof.
  unfold Structure.count_pair.
  induction y as [| x y IH]; cbn [combine filter fst snd length count_occ].
  - now destruct (a =? b)%nat.
  - destruct (Nat.eqb_spec x a) as [-> | Hxa], (Nat.eqb_spec a b) as [<- | Hab].
    + rewrite ?Nat.eqb_refl. cbn [andb length].
      destruct (Nat.eq_dec a a); [| contradiction]. now rewrite IH.
    + destruct (Nat.eqb_spec a b); [contradiction |]. cbn [andb]. exact IH.
    + cbn [andb]. destruct (Nat.eq_dec x a); [contradiction |]. exact IH.
    + cbn [andb]. exact IH.
Qed.

(** A labelling leaves nothing to learn about itself. *)
Lemma conditional_entropy_self (y : list nat) : conditional_entropy y y = 0.
Proof.
  unfold conditional_entropy.
  rewrite Rsum_zero; [ring |]. intros a _.
  apply Rsum_zero. intros b _.
  unfold conditional_term, joint_probability, marginal_probability.
  rewrite count_pair_self.
  destruct (Req_dec_T _ 0) as [_ | Hne]; [reflexivity |].
  destruct (Nat.eqb_spec a b) as [_ | _].
  - set (J := INR (count_occ Nat.eq_dec y a) / INR (length y)) in *.
    replace (J / J) with 1 by (field; exact Hne).
    unfold Structure.log2. rewrite ln_1. unfold Rdiv. ring.
  - exfalso. apply Hne. cbn. unfold Rdiv. ring.
Qed.

Lemma ln_le_minus_1 (x : R) : 0 < x -> ln x <= x - 1.
Proof.
  intros Hx. pose proof (exp_ineq1_le (ln x)) as H.
  rewrite exp_ln in H by exact Hx. lra.
Qed.

Lemma ln_ge_1_minus_inv (x : R) : 0 < x -> 1 - / x <= ln x.
Proof.
  intros Hx. pose proof (ln_le_minus_1 (/ x) (Rinv_0_lt_compat _ Hx)) as H.
  rewrite ln_Rinv in H by exact Hx. lra.
Qed.

Lemma joint_le_marginal (given target : list nat) (a b : nat) :
  length given = length target ->
  0 <= joint_probability given target a b <= marginal_probability given a.
Proof.
  intros Hlen. unfold joint_probability, marginal_probability.
  assert (Hc : (Structure.count_pair a b (combine given target)
                <= count_occ Nat.eq_dec given a)%nat).
  { rewrite <- (filter_fst_combine a given target Hlen).
    unfold Structure.count_pair.
    induction (combine given target) as [| p l IH]; cbn [filter]; [lia |].
    destruct (fst p =? a)%nat, (snd p =? b)%nat; cbn [andb length]; lia. }
  apply le_INR in Hc.
  pose proof (pos_INR (Structure.count_pair a b (combine given target))).
  pose proof (pos_INR (length given)) as HN.
  destruct (Req_dec_T (INR (length given)) 0) as [E | E].
  - rewrite E. unfold Rdiv. rewrite Rinv_0. lra.
  - assert (0 < / INR (length given)) by (apply Rinv_0_lt_compat; lra).
    unfold Rdiv. split; nra.
Qed.

Lemma conditional_term_nonpositive (J p : R) :
  0 <= J <= p -> conditional_term J p <= 0.
Proof.
  intros (HJ & Hp). unfold conditional_term, Structure.log2.
  destruct (Req_dec_T J 0) as [_ | Hne]; [lra |].
  assert (HJ' : 0 < J) by lra.
  assert (Hq : 0 < J / p <= 1).
  { split; [apply Rdiv_lt_0_compat; lra |].
    apply Rmult_le_reg_r with p; [lra |].
    unfold Rdiv. rewrite Rmult_assoc, Rinv_l by lra. lra. }
  pose proof (ln_le_minus_1 (J / p) (proj1 Hq)) as Hln.
  pose proof ln_2_pos as H2.
  assert (Hi2 : 0 < / ln 2) by now apply Rinv_0_lt_compat.
  assert (Hdiv : ln (J / p) * / ln 2 <= 0) by nra.
  unfold Rdiv at 1. nra.
Qed.

Lemma conditional_entropy_nonnegative (given target : list nat) :
  length given = length target -> 0 <= conditional_entropy given target.
Proof.
  intros Hlen. unfold conditional_entropy.
  assert (H : Rsum (map (fun a =>
                Rsum (map (fun b =>
                  conditional_term (joint_probability given target a b)
                                   (marginal_probability given a))
                  (Structure.unique target)))
                (Structure.unique given)) <= 0).
  { rewrite <- (Rsum_zero (fun _ : nat => 0) (Structure.unique given))
      by reflexivity.
    apply Rsum_le. intros a _.
    rewrite <- (Rsum_zero (fun _ : nat => 0) (Structure.unique target))
      by reflexivity.
    apply Rsum_le. intros b _.
    apply conditional_term_nonpositive. now apply joint_le_marginal. }
  lra.
Qed.

(** The marginal frequencies of the distinct labels add up to 1. *)
Lemma count_occ_total (cs y : list nat) :
  NoDup cs -> (forall x, In x y -> In x cs) ->
  nat_sum (map (count_occ Nat.eq_dec y) cs) = length y.
Proof.
  intros Hnd. induction y as [| x y IH]; intros Hin.
  - cbn [count_occ]. apply nat_sum_zeros.
  - rewrite (nat_sum_ext_in _
               (fun a => ((if (x =? a)%nat then 1 else 0)
                          + count_occ Nat.eq_dec y a)%nat)).
    + rewrite nat_sum_add, IH by (intros; apply Hin; now right).
      rewrite nat_sum_one_hit; [reflexivity | exact Hnd |].
      apply Hin. now left.
    + intros a _. cbn [count_occ].
      destruct (Nat.eq_dec x a), (Nat.eqb_spec x a); try contradiction; lia.
Qed.

Lemma marginal_total (y : list nat) :
  y <> [] ->
  Rsum (map (marginal_probability y) (Structure.unique y)) = 1.
Proof.
  intros Hne. unfold marginal_probability.
  rewrite (Rsum_ext_in _
             (fun a => / INR (length y) * INR (count_occ Nat.eq_dec y a)))
    by (intros; unfold Rdiv; ring).
  rewrite Rsum_scale, Rsum_INR, count_occ_total.
  - apply Rinv_l. apply not_0_INR. destruct y; [contradiction | discriminate].
  - apply unique_NoDup.
  - intros x Hx. now apply unique_in.
Qed.

(** One term of Gibbs' inequality. *)
Lemma conditional_term_lower (J p n : R) :
  0 <= J -> 0 < p -> 0 < n ->
  (J - p / n) / ln 2 <= conditional_term J p + J * Structure.log2 n.
Proof.
  intros HJ Hp Hn. pose proof ln_2_pos as H2.
  assert (Hi2 : 0 < / ln 2) by now apply Rinv_0_lt_compat.
  assert (Hpn : 0 < p / n) by now apply Rdiv_lt_0_compat.
  unfold conditional_term, Structure.log2.
  destruct (Req_dec_T J 0) as [-> | Hne].
  - unfold Rdiv in *. nra.
  - assert (HJ' : 0 < J) by lra.
    assert (Hx : 0 < J / p * n)
      by (apply Rmult_lt_0_compat; [apply Rdiv_lt_0_compat |]; lra).
    pose proof (ln_ge_1_minus_inv _ Hx) as Hln.
    rewrite ln_mult in Hln by (try apply Rdiv_lt_0_compat; lra).
    replace (/ (J / p * n)) with (p / n / J) in Hln by (field; lra).
    assert (Hmul : J - p / n <= J * (ln (J / p) + ln n)).
    { replace (J - p / n) with (J * (1 - p / n / J)) by (field; lra).
      apply Rmult_le_compat_l; lra. }
    replace (J * (ln (J / p) / ln 2) + J * (ln n / ln 2))
      with (J * (ln (J / p) + ln n) * / ln 2) by (unfold Rdiv; ring).
    unfold Rdiv at 1. apply Rmult_le_compat_r; lra.
Qed.

Lemma conditional_entropy_le_log2 (given target : list nat) :
  length given = length target -> given <> [] ->
  conditional_entropy given target
  <= Structure.log2 (INR (length (Structure.unique target))).
Proof.
  intros Hlen Hne.
  set (n := INR (length (Structure.unique target))).
  assert (Htarget : target <> [])
    by (intros ->; destruct given; [contradiction | discriminate]).
  assert (Hn : 0 < n).
  { unfold n. apply lt_0_INR.
    destruct target as [| x t]; [contradiction |].
    assert (Hin : In x (Structure.unique (x :: t)))
      by (apply unique_in; now left).
    destruct (Structure.unique (x :: t)); [contradiction | cbn; lia]. }
  unfold conditional_entropy.
  set (ct := fun a b =>
         conditional_term (joint_probability given target a b)
                          (marginal_probability given a)).
  assert (Hrow : forall a, In a (Structure.unique given) ->
            0 <= Rsum (map (ct a) (Structure.unique target))
                 + marginal_probability given a * Structure.log2 n).
  { intros a Ha. apply (proj1 (unique_in _ _)) in Ha.
    pose proof (marginal_probability_pos given a Ha) as Hp.
    assert (Hp' : 0 < marginal_probability given a).
    { destruct (joint_le_marginal given given a a eq_refl) as (H0 & H1).
      lra. }
    set (p := marginal_probability given a) in *.
    set (U := Structure.unique target) in *.
    set (J := joint_probability given target a).
    assert (HJ : Rsum (map J U) = p) by (apply contingency_row; exact Hlen).
    assert (E1 : Rsum (map (fun b => ct a b + J b * Structure.log2 n) U)
                 = Rsum (map (ct a) U) + p * Structure.log2 n).
    { rewrite Rsum_plus. f_equal.
      rewrite (Rsum_ext_in (fun b => J b * Structure.log2 n)
                           (fun b => Structure.log2 n * J b))
        by (intros; ring).
      rewrite Rsum_scale, HJ. ring. }
    assert (E2 : Rsum (map (fun b => (J b - p / n) / ln 2) U) = 0).
    { rewrite (Rsum_ext_in (fun b => (J b - p / n) / ln 2)
                           (fun b => / ln 2 * (J b + - (p / n))))
        by (intros; unfold Rdiv; ring).
      rewrite Rsum_scale, Rsum_plus, Rsum_const, HJ.
      change (INR (length U)) with n.
      pose proof ln_2_pos. field. split; lra. }
    rewrite <- E1, <- E2. apply Rsum_le. intros b _.
    apply conditional_term_lower; try assumption.
    apply (joint_le_marginal given target a b Hlen). }
  assert (Htotal :
    Rsum (map (fun a => Rsum (map (ct a) (Structure.unique target))
                        + marginal_probability given a * Structure.log2 n)
              (Structure.unique given))
    = Rsum (map (fun a => Rsum (map (ct a) (Structure.unique target)))
                (Structure.unique given))
      + Structure.log2 n).
  { rewrite Rsum_plus. f_equal.
    rewrite (Rsum_ext_in
               (fun a => marginal_probability given a * Structure.log2 n)
               (fun a => Structure.log2 n * marginal_probability given a))
      by (intros; ring).
    rewrite Rsum_scale, marginal_total by exact Hne. ring. }
  assert (Hsum : 0 <= Rsum (map (fun a =>
                     Rsum (map (ct a) (Structure.unique target))
                     + marginal_probability given a * Structure.log2 n)
                   (Structure.unique given))).
  { rewrite <- (Rsum_zero (fun _ : nat => 0) (Structure.unique given))
      by reflexivity.
    apply Rsum_le. exact Hrow. }
  rewrite Htotal in Hsum. unfold ct in Hsum. lra.
Qed.

Lemma log2_pos (n : nat) : (1 < n)%nat -> 0 < Structure.log2 (INR n).
Proof.
  intros Hn. unfold Structure.log2. apply Rdiv_lt_0_compat; [| apply ln_2_pos].
  rewrite <- ln_1. apply ln_increasing; [lra |].
  change 1 with (INR 1). now apply lt_INR.
Qed.

Lemma score_unit_interval (H L : R) :
  0 <= H <= L -> 0 < L -> 0 <= 1 - H / L <= 1.
Proof.
  intros (H0 & H1) HL.
  assert (Hq : 0 <= H / L <= 1).
  { split.
    - apply Rmult_le_pos; [exact H0 |]. left. now apply Rinv_0_lt_compat.
    - apply Rmult_le_reg_r with L; [exact HL |].
      unfold Rdiv. rewrite Rmult_assoc, Rinv_l by lra. lra. }
  lra.
Qed.

Section NceMore.

Variable intervals_to_samples :
  ndarray -> list label -> R -> list R * list sample_label.
Variable index_labels : list sample_label -> list nat * list sample_label.

Let frame_ids := Structure.frame_ids intervals_to_samples index_labels.
Let nce := Structure.nce intervals_to_samples index_labels.

(** X12. A valid (intervals, labels) pair given to [nce] as both reference
    and estimate scores (1.0, 1.0, 1.0) when its frames fall into more
    than one cluster, and (nan, nan, nan) otherwise. *)
Theorem nce_identical :
  forall (intervals : ndarray) (labels : list label) (frame_size beta : R),
    Structure.validate_pair intervals labels = Ok tt ->
    let n_clusters :=
      length (Structure.unique (frame_ids intervals labels frame_size)) in
    nce intervals labels intervals labels frame_size beta
    = Ok (if (1 <? n_clusters)%nat then (Fin 1, Fin 1, Fin 1)
          else (NaN, NaN, NaN)).
Proof.
  intros intervals labels frame_size beta Hvalid n_clusters.
  apply validated_same in Hvalid.
  unfold nce.
  rewrite (nce_returns intervals_to_samples index_labels
             intervals labels intervals labels frame_size beta Hvalid eq_refl).
  fold frame_ids. fold n_clusters.
  unfold entropy_est_given_ref, entropy_ref_given_est.
  rewrite conditional_entropy_self.
  destruct (1 <? n_clusters)%nat; [| reflexivity].
  replace (1 - 0 / Structure.log2 (INR n_clusters)) with 1
    by (unfold Rdiv; ring).
  unfold Util.f_measure.
  destruct (Req_dec_T (beta ^ 2 * 1 + 1) 0) as [E | E]; [nra |].
  do 3 f_equal. field. nra.
Qed.

(** X13. On inputs validated in both orders whose two frame counts agree,
    exchanging reference and estimate exchanges the over- and the
    under-clustering score of [nce]. *)
Theorem nce_swap :
  forall (a : ndarray) (a_labels : list label)
         (b : ndarray) (b_labels : list label) (frame_size beta : R),
    validated a a_labels b b_labels ->
    validated b b_labels a a_labels ->
    length (frame_ids a a_labels frame_size)
    = length (frame_ids b b_labels frame_size) ->
    exists S_over S_under F F',
      nce a a_labels b b_labels frame_size beta = Ok (S_over, S_under, F)
      /\ nce b b_labels a a_labels frame_size beta = Ok (S_under, S_over, F').
Proof.
  intros a al b bl frame_size beta Hab Hba Hlen.
  unfold nce.
  rewrite (nce_returns intervals_to_samples index_labels
             a al b bl frame_size beta Hab Hlen).
  rewrite (nce_returns intervals_to_samples index_labels
             b bl a al frame_size beta Hba (eq_sym Hlen)).
  eexists. eexists. eexists. eexists. split; reflexivity.
Qed.

(** X14. Every finite over- or under-clustering score that [nce] returns
    on a validated input lies between 0 and 1: a conditional entropy is
    not negative and not above the logarithm of the number of clusters. *)
Theorem nce_scores_bounded :
  forall (reference_intervals : ndarray) (reference_labels : list label)
         (estimated_intervals : ndarray) (estimated_labels : list label)
         (frame_size beta : R),
    validated reference_intervals reference_labels
              estimated_intervals estimated_labels ->
    forall S_over S_under S_F,
      nce reference_intervals reference_labels
          estimated_intervals estimated_labels frame_size beta
      = Ok (S_over, S_under, S_F) ->
      (forall s, S_over = Fin s -> 0 <= s <= 1)
      /\ (forall s, S_under = Fin s -> 0 <= s <= 1).
Proof.
  intros ri rl ei el frame_size beta Hvalid S_over S_under S_F Hrun.
  set (y_ref := frame_ids ri rl frame_size).
  set (y_est := frame_ids ei el frame_size).
  destruct (Nat.eq_dec (length y_ref) (length y_est)) as [Hlen | Hlen].
  2: { unfold nce in Hrun.
       rewrite (nce_raises intervals_to_samples index_labels
                  ri rl ei el frame_size beta Hvalid Hlen) in Hrun.
       discriminate Hrun. }
  unfold nce in Hrun.
  rewrite (nce_returns intervals_to_samples index_labels
             ri rl ei el frame_size beta Hvalid Hlen) in Hrun.
  fold frame_ids in Hrun. fold y_ref y_est in Hrun.
  injection Hrun as <- <- _.
  assert (Hnonempty : forall y : list nat,
             (1 < length (Structure.unique y))%nat -> y <> []).
  { intros y Hy ->. cbn in Hy. lia. }
  split; intros s Hs.
  - destruct (Nat.ltb_spec 1 (length (Structure.unique y_est))) as [Hn | Hn];
      [| discriminate Hs].
    injection Hs as <-.
    apply score_unit_interval; [| now apply log2_pos].
    unfold entropy_est_given_ref. split.
    + now apply conditional_entropy_nonnegative.
    + apply conditional_entropy_le_log2; [exact Hlen |].
      intros E. apply (Hnonempty _ Hn). rewrite E in Hlen.
      now destruct y_est.
  - destruct (Nat.ltb_spec 1 (length (Structure.unique y_ref))) as [Hn | Hn];
      [| discriminate Hs].
    injection Hs as <-.
    apply score_unit_interval; [| now apply log2_pos].
    unfold entropy_ref_given_est. split.
    + now apply conditional_entropy_nonnegative.
    + apply conditional_entropy_le_log2; [now symmetry |].
      intros E. apply (Hnonempty _ Hn). rewrite E in Hlen.
      now destruct y_ref.
Qed.

End NceMore.

Lemma nce_identical_witness :
  Structure.validate_pair (Rows2 [(0, 1); (1, 2)]) ["a"; "b"]%string = Ok tt
  /\ Structure.nce Util.intervals_to_samples Util.index_labels
       (Rows2 [(0, 1); (1, 2)]) ["a"; "b"]%string
       (Rows2 [(0, 1); (1, 2)]) ["a"; "b"]%string 1 1
     = Ok (Fin 1, Fin 1, Fin 1).
Proof.
  assert (Hvalid : Structure.validate_pair (Rows2 [(0, 1); (1, 2)])
                     ["a"; "b"]%string = Ok tt).
  { apply (proj2 (validate_pair_ok _ _ _)). Reval. auto. }
  split; [exact Hvalid |].
  rewrite (nce_identical Util.intervals_to_samples Util.index_labels
             _ _ 1 1 Hvalid).
  rewrite frame_ids_a_b. reflexivity.
Defined.

Lemma nce_swap_witness :
  let a := Rows2 [(0, 1); (1, 2)] in
  let a_labels := ["a"; "b"]%string in
  let b := Rows2 [(0, 2)] in
  let b_labels := ["x"%string] in
  let nce := Structure.nce Util.intervals_to_samples Util.index_labels in
  validated a a_labels b b_labels /\ validated b b_labels a a_labels
  /\ exists S_over S_under F F',
       nce a a_labels b b_labels 1 1 = Ok (S_over, S_under, F)
       /\ nce b b_labels a a_labels 1 1 = Ok (S_under, S_over, F').
Proof.
  intros a a_labels b b_labels nce.
  split; [exact validated_a_b_x |]. split; [exact validated_x_a_b |].
  apply (nce_swap Util.intervals_to_samples Util.index_labels
           a a_labels b b_labels 1 1 validated_a_b_x validated_x_a_b).
  unfold a, a_labels, b, b_labels. now rewrite frame_ids_a_b, frame_ids_x_x.
Defined.

Lemma nce_scores_bounded_witness :
  validated (Rows2 [(0, 2); (2, 4)]) ["a"; "b"]%string
            (Rows2 [(0, 1); (1, 2); (2, 4)]) ["p"; "q"; "r"]%string
  /\ 0 <= 1 - 1 / 2 / Structure.log2 3 <= 1.
Proof.
  split; [exact validated_aabb_pqrr |].
  destruct (nce_scores_bounded Util.intervals_to_samples Util.index_labels
              _ _ _ _ 1 1 validated_aabb_pqrr _ _ _ (nce_aabb_pqrr 1))
    as (Hover & _).
  now apply Hover.
Defined.

(** ** Relabelling and empty annotations *)

Section PairwisePartition.

Variable intervals_to_samples :
  ndarray -> list label -> R -> list R * list sample_label.
Variable index_labels : list sample_label -> list nat * list sample_label.

Let frame_ids := Structure.frame_ids intervals_to_samples index_labels.
Let pairwise := Structure.pairwise intervals_to_samples index_labels.

(** X15. [pairwise] looks at co-membership only, not at the labels: on a
    validated input with at least one frame, when any two frames share
    their reference cluster exactly when they share their estimated
    cluster, the scores are (1.0, 1.0, 1.0). *)
Theorem pairwise_same_partition :
  forall (reference_intervals : ndarray) (reference_labels : list label)
         (estimated_intervals : ndarray) (estimated_labels : list label)
         (frame_size beta : R),
    validated reference_intervals reference_labels
              estimated_intervals estimated_labels ->
    let y_ref := frame_ids reference_intervals reference_labels frame_size in
    let y_est := frame_ids estimated_intervals estimated_labels frame_size in
    length y_ref = length y_est ->
    y_ref <> [] ->
    (forall i j, (i < length y_ref)%nat -> (j < length y_ref)%nat ->
                 nth i y_ref 0%nat = nth j y_ref 0%nat
                 <-> nth i y_est 0%nat = nth j y_est 0%nat) ->
    pairwise reference_intervals reference_labels
             estimated_intervals estimated_labels frame_size beta
    = Ok (Fin 1, Fin 1, Fin 1).
Proof.
  intros ri rl ei el frame_size beta Hvalid y_ref y_est Hlen Hne Hsame.
  unfold pairwise.
  rewrite (pairwise_run intervals_to_samples index_labels) by exact Hvalid.
  cbv zeta. fold frame_ids. fold y_ref y_est.
  set (agree_ref := Structure.triu (Structure.equal_outer y_ref y_ref)).
  set (agree_est := Structure.triu (Structure.equal_outer y_est y_est)).
  assert (Hitems : forall i j, (i < length y_ref)%nat -> (j < length y_ref)%nat ->
                               item agree_est i j = item agree_ref i j).
  { intros i j Hi Hj.
    cbn [agree_ref agree_est Structure.triu Structure.equal_outer item].
    destruct (j <? i)%nat; [reflexivity |].
    destruct (Nat.eqb_spec (nth i y_ref 0%nat) (nth j y_ref 0%nat)) as [E | E],
             (Nat.eqb_spec (nth i y_est 0%nat) (nth j y_est 0%nat)) as [E' | E'];
      try reflexivity; exfalso.
    - apply E'. now apply (Hsame i j Hi Hj).
    - apply E. now apply (Hsame i j Hi Hj). }
  assert (Hest : Structure.asum agree_est = Structure.asum agree_ref).
  { apply asum_ext; cbn [agree_ref agree_est Structure.triu
                         Structure.equal_outer shape0 shape1];
      try (now symmetry).
    intros i j Hi Hj. apply Hitems; lia. }
  destruct (logical_and_same_shape agree_ref agree_est)
    as (X & HX & HX0 & HX1 & HXitem); [exact Hlen | exact Hlen |].
  assert (Hboth : Structure.asum X = Structure.asum agree_ref).
  { apply asum_ext; auto. intros i j Hi Hj.
    rewrite HXitem by lia. rewrite Hitems; [apply andb_diag | |];
      cbn [agree_ref Structure.triu Structure.equal_outer shape0 shape1] in *;
      lia. }
  rewrite HX. cbn [bind]. rewrite Hboth, Hest.
  assert (Hpos : (0 < Structure.asum agree_ref)%nat).
  { unfold agree_ref. rewrite asum_agree.
    destruct y_ref; [contradiction | cbn; lia]. }
  rewrite true_divide_pos by exact Hpos.
  assert (Hnz : INR (Structure.asum agree_ref) <> 0)
    by (apply not_0_INR; lia).
  replace (INR (Structure.asum agree_ref) / INR (Structure.asum agree_ref))
    with 1 by (field; exact Hnz).
  unfold Util.f_measure.
  destruct (Req_dec_T (beta ^ 2 * 1 + 1) 0) as [E | E]; [nra |].
  do 3 f_equal. field. nra.
Qed.

End PairwisePartition.

Lemma frame_ids_p_q :
  Structure.frame_ids Util.intervals_to_samples Util.index_labels
    (Rows2 [(0, 1); (1, 2)]) ["p"; "q"]%string 1 = [0; 1]%nat.
Proof.
  unfold Structure.frame_ids, Util.intervals_to_samples. cbn [last snd].
  rewrite (Zfloor_eq 2) by (split; lra).
  change (Z.to_nat 2) with 2%nat.
  Reval. reflexivity.
Qed.

Lemma validated_a_b_p_q :
  validated (Rows2 [(0, 1); (1, 2)]) ["a"; "b"]%string
            (Rows2 [(0, 1); (1, 2)]) ["p"; "q"]%string.
Proof.
  unfold validated, Structure.validate, Structure.validate_pair,
    Structure.validate_intervals.
  Reval. reflexivity.
Qed.

Lemma pairwise_same_partition_witness :
  let intervals := Rows2 [(0, 1); (1, 2)] in
  validated intervals ["a"; "b"]%string intervals ["p"; "q"]%string
  /\ Structure.pairwise Util.intervals_to_samples Util.index_labels
       intervals ["a"; "b"]%string intervals ["p"; "q"]%string 1 1
     = Ok (Fin 1, Fin 1, Fin 1).
Proof.
  intros intervals. split; [exact validated_a_b_p_q |].
  apply (pairwise_same_partition Util.intervals_to_samples Util.index_labels
           intervals ["a"; "b"]%string intervals ["p"; "q"]%string 1 1
           validated_a_b_p_q);
    unfold intervals; rewrite ?frame_ids_a_b, ?frame_ids_p_q.
  - reflexivity.
  - discriminate.
  - intros i j _ _. reflexivity.
Defined.

(** X16. An interval array without rows never reaches a structure metric:
    the decorator raises the label-count error when labels are given, and
    otherwise the index error of [intervals[0, 0]]; for the estimate this
    happens once the reference has passed its checks. *)
Theorem structure_empty_intervals :
  forall (Args B : Type)
         (metric : ndarray -> list label -> ndarray -> list label -> Args
                   -> result B)
         (intervals : ndarray) (labels empty_labels : list label) (args : Args),
    let raised :=
      match empty_labels with
      | [] => IndexError
      | _ :: _ => LabelCountError
      end in
    Structure.validate metric (Rows2 []) empty_labels intervals labels args
    = Raise raised
    /\ (Structure.validate_pair intervals labels = Ok tt ->
        Structure.validate metric intervals labels (Rows2 []) empty_labels args
        = Raise raised).
Proof.
  intros Args B metric intervals labels empty_labels args raised.
  assert (Hpair : Structure.validate_pair (Rows2 []) empty_labels
                  = Raise raised).
  { unfold Structure.validate_pair, raised. cbn.
    destruct empty_labels; reflexivity. }
  unfold Structure.validate. split.
  - now rewrite Hpair.
  - intros ->. cbn [bind]. now rewrite Hpair.
Qed.

Lemma structure_empty_intervals_witness :
  Structure.validate_pair (Rows2 [(0, 2)]) ["x"%string] = Ok tt
  /\ Structure.pairwise Util.intervals_to_samples Util.index_labels
       (Rows2 [(0, 2)]) ["x"%string] (Rows2 []) [] 1 1
     = Raise IndexError.
Proof.
  assert (Hvalid : Structure.validate_pair (Rows2 [(0, 2)]) ["x"%string]
                   = Ok tt).
  { apply (proj2 (validate_pair_ok _ _ _)). Reval. auto. }
  split; [exact Hvalid |].
  destruct (structure_empty_intervals _ _
              (Structure.pairwise_wrapped Util.intervals_to_samples
                 Util.index_labels)
              (Rows2 [(0, 2)]) ["x"%string] [] (1, 1)) as (_ & H).
  exact (H Hvalid).
Defined.
